(** * LegalSimplify: the text core of [src/App.jsx]

    A shallow embedding of the four pure functions of the component
    ([splitSentences], [heuristicsSummary], [simpleChatAnswer] and the
    memoised [risks]) together with the pieces of the JavaScript runtime
    they call: strings as sequences of UTF-16 code units, [trim],
    [includes], [slice], [join], a backtracking matcher for the regular
    expressions that occur in the file, and the [split], [replace] and
    [test] loops built on it. *)

From Stdlib Require Import String Ascii.
From Stdlib Require Import List NArith ZArith QArith Qminmax Bool Lia.
From Stdlib Require Import Permutation Sorted Lqa.
Import ListNotations.

Local Open Scope N_scope.
Local Open Scope list_scope.

(** ** JavaScript strings *)

(** A string is the sequence of its UTF-16 code units. *)
Definition cu := N.
Definition jsstring := list cu.

(** Source literals are ASCII; [lit] turns one into its code units. *)
Definition lit (s : string) : jsstring :=
  List.map N_of_ascii (list_ascii_of_string s).

(** ECMAScript WhiteSpace and LineTerminator code units: what [\s]
    matches and what [trim] removes. *)
Definition is_ws (c : cu) : bool :=
  (c =? 9) || (c =? 10) || (c =? 11) || (c =? 12) || (c =? 13) ||
  (c =? 32) || (c =? 160) || (c =? 5760) ||
  ((8192 <=? c) && (c <=? 8202)) ||
  (c =? 8232) || (c =? 8233) || (c =? 8239) || (c =? 8287) ||
  (c =? 12288) || (c =? 65279).

Fixpoint dropWhile {A} (p : A -> bool) (l : list A) : list A :=
  match l with
  | [] => []
  | x :: l' => if p x then dropWhile p l' else l
  end.

(** [String.prototype.trim]. *)
Definition trim (s : jsstring) : jsstring :=
  rev (dropWhile is_ws (rev (dropWhile is_ws s))).

(** JavaScript truthiness of a string: [Boolean(s)], [!s], [s || d]. *)
Definition truthy (s : jsstring) : bool :=
  match s with [] => false | _ :: _ => true end.

Fixpoint starts_with (k s : jsstring) : bool :=
  match k, s with
  | [], _ => true
  | _ :: _, [] => false
  | a :: k', b :: s' => (a =? b) && starts_with k' s'
  end.

(** [String.prototype.includes]. *)
Fixpoint includes (s k : jsstring) : bool :=
  starts_with k s ||
  match s with
  | [] => false
  | _ :: s' => includes s' k
  end.

(** [Array.prototype.join] on an array of strings. *)
Fixpoint join (sep : jsstring) (l : list jsstring) : jsstring :=
  match l with
  | [] => []
  | [x] => x
  | x :: l' => x ++ sep ++ join sep l'
  end.

(** [Array.prototype.slice(0, e)] for an integer [e]: a negative end
    counts from the end of the array. *)
Definition slice0 {A} (e : Z) (l : list A) : list A :=
  let len := Z.of_nat (length l) in
  let final := if (e <? 0)%Z then Z.max (len + e) 0 else Z.min e len in
  firstn (Z.to_nat final) l.

(** ** Regular expressions *)

(** Character classes of the patterns in the file. *)
Inductive cls :=
| ClsWs                              (* \s *)
| ClsSet (ranges : list (cu * cu)).  (* [...] as inclusive ranges *)

Definition in_cls (c : cls) (ch : cu) : bool :=
  match c with
  | ClsWs => is_ws ch
  | ClsSet rs => existsb (fun r => (fst r <=? ch) && (ch <=? snd r)) rs
  end.

(** The pattern syntax the file uses.  Capture groups do not change
    what is matched and are left out. *)
Inductive regex :=
| Eps
| Chr (c : cu)
| Cls (c : cls)
| Seq (r1 r2 : regex)
| Alt (r1 r2 : regex)
| Opt (r : regex)           (* r?   greedy *)
| PlusCls (c : cls)         (* c+   greedy *)
| Behind (c : cls)          (* (?<=c) *)
| Ahead (c : cls).          (* (?=c)  *)

(** Canonicalize of the [i] flag without the [u] flag: the upper-case
    form when it is one code unit, except that a code unit from 128 on
    never folds below 128.  A code unit from 128 on therefore stays from
    128 on, and only the ASCII letters fold into ASCII, which is all that
    matching against the ASCII patterns of the file depends on. *)
Definition canonicalize (ch : cu) : cu :=
  if (97 <=? ch) && (ch <=? 122) then ch - 32 else ch.

Definition swap_case (ch : cu) : cu :=
  if (97 <=? ch) && (ch <=? 122) then ch - 32
  else if (65 <=? ch) && (ch <=? 90) then ch + 32 else ch.

Definition chr_match (i : bool) (c ch : cu) : bool :=
  if i then canonicalize c =? canonicalize ch else c =? ch.

Definition cls_match (i : bool) (c : cls) (ch : cu) : bool :=
  in_cls c ch || (i && in_cls c (swap_case ch)).

(** The matcher runs on the code unit before the current position (for
    lookbehind) and the rest of the input, and calls its continuation
    with the same at the end of the match; the result is the input left
    after the whole match, or [None]. *)
Definition cont := option cu -> jsstring -> option jsstring.

(** Greedy repetition of a class: longest first, then backtrack. *)
Fixpoint star_cls (p : cu -> bool) (prev : option cu) (s : jsstring)
    (k : cont) : option jsstring :=
  match s with
  | ch :: s' =>
      if p ch then
        match star_cls p (Some ch) s' k with
        | Some r => Some r
        | None => k prev s
        end
      else k prev s
  | [] => k prev []
  end.

Fixpoint rmatch (i : bool) (r : regex) (prev : option cu) (s : jsstring)
    (k : cont) : option jsstring :=
  match r with
  | Eps => k prev s
  | Chr c =>
      match s with
      | ch :: s' => if chr_match i c ch then k (Some ch) s' else None
      | [] => None
      end
  | Cls c =>
      match s with
      | ch :: s' => if cls_match i c ch then k (Some ch) s' else None
      | [] => None
      end
  | Seq r1 r2 => rmatch i r1 prev s (fun p' s' => rmatch i r2 p' s' k)
  | Alt r1 r2 =>
      match rmatch i r1 prev s k with
      | Some x => Some x
      | None => rmatch i r2 prev s k
      end
  | Opt r1 =>
      match rmatch i r1 prev s k with
      | Some x => Some x
      | None => k prev s
      end
  | PlusCls c =>
      match s with
      | ch :: s' =>
          if cls_match i c ch then star_cls (cls_match i c) (Some ch) s' k
          else None
      | [] => None
      end
  | Behind c =>
      match prev with
      | Some ch => if cls_match i c ch then k prev s else None
      | None => None
      end
  | Ahead c =>
      match s with
      | ch :: _ => if cls_match i c ch then k prev s else None
      | [] => None
      end
  end.

(** One match attempt at the current position; the number of code units
    the match consumed. *)
Definition exec_at (i : bool) (r : regex) (prev : option cu)
    (s : jsstring) : option nat :=
  match rmatch i r prev s (fun _ rest => Some rest) with
  | Some rest => Some (length s - length rest)%nat
  | None => None
  end.

(** The leftmost match of a regex without the [g] flag: the text before
    it, the matched text and the text after it. *)
Fixpoint search_from (i : bool) (r : regex) (prev : option cu)
    (pre_rev : jsstring) (s : jsstring)
    : option (jsstring * jsstring * jsstring) :=
  match exec_at i r prev s with
  | Some n => Some (rev pre_rev, firstn n s, skipn n s)
  | None =>
      match s with
      | [] => None
      | ch :: s' => search_from i r (Some ch) (ch :: pre_rev) s'
      end
  end.

Definition search (i : bool) (r : regex) (s : jsstring) :=
  search_from i r None [] s.

(** [RegExp.prototype.test] (no [g] or [y] flag). *)
Definition test (i : bool) (r : regex) (s : jsstring) : bool :=
  match search i r s with Some _ => true | None => false end.

(** [String.prototype.replace] with a regex without the [g] flag and a
    replacer function of the matched text. *)
Definition replace (i : bool) (r : regex) (f : jsstring -> jsstring)
    (s : jsstring) : jsstring :=
  match search i r s with
  | Some (pre, m, post) => pre ++ f m ++ post
  | None => s
  end.

(** [String.prototype.replace] with a [g] regex and a constant
    replacement: after a match the scan resumes at its end ([skip] code
    units are dropped); an empty match advances by one code unit. *)
Fixpoint replace_g_from (i : bool) (r : regex) (repl : jsstring)
    (skip : nat) (prev : option cu) (s : jsstring) : jsstring :=
  match s with
  | [] =>
      match exec_at i r prev [] with
      | Some _ => repl
      | None => []
      end
  | ch :: s' =>
      match skip with
      | S n => replace_g_from i r repl n (Some ch) s'
      | O =>
          match exec_at i r prev s with
          | Some O => repl ++ ch :: replace_g_from i r repl O (Some ch) s'
          | Some (S n) => repl ++ replace_g_from i r repl n (Some ch) s'
          | None => ch :: replace_g_from i r repl O (Some ch) s'
          end
      end
  end.

Definition replace_g (i : bool) (r : regex) (repl : jsstring)
    (s : jsstring) : jsstring :=
  replace_g_from i r repl O None s.

(** The loop of [RegExp.prototype[Symbol.split]] (no limit, no capture
    groups).  [cur_rev] holds, reversed, the code units from the start
    [p] of the current piece to the scan position [q]; a match at [q]
    that ends at [e > p] closes the piece and sets [p = q = e], which
    drops the [skip] matched code units; a failed attempt, or an empty
    match at [q = p], advances [q] by one.  An empty match at [q > p]
    closes the piece and is met again at [q = p]. *)
Fixpoint split_from (i : bool) (r : regex) (skip : nat) (prev : option cu)
    (cur_rev : jsstring) (s : jsstring) : list jsstring :=
  match s with
  | [] => [rev cur_rev]
  | ch :: s' =>
      match skip with
      | S n => split_from i r n (Some ch) [] s'
      | O =>
          match exec_at i r prev s with
          | None => split_from i r O (Some ch) (ch :: cur_rev) s'
          | Some O =>
              match cur_rev with
              | [] => split_from i r O (Some ch) [ch] s'
              | _ :: _ => rev cur_rev :: split_from i r O (Some ch) [ch] s'
              end
          | Some (S n) => rev cur_rev :: split_from i r n (Some ch) [] s'
          end
      end
  end.

(** [String.prototype.split] with a regex separator. *)
Definition split (i : bool) (r : regex) (s : jsstring) : list jsstring :=
  match s with
  | [] =>
      match exec_at i r None [] with
      | Some _ => []
      | None => [[]]
      end
  | _ :: _ => split_from i r O None [] s
  end.

(** ** The application *)

(** A pattern that is a run of literal characters. *)
Definition word (s : string) : regex :=
  fold_right (fun c r => Seq (Chr c) r) Eps (lit s).

(** [/\n/g] *)
Definition newlineRe : regex := Chr 10.

(** The sentence boundary of [splitSentences]: behind it one of [. ! ?],
    then white space, and ahead of it an upper-case letter, a digit, a
    double or single quote or a parenthesis. *)
Definition endCls : cls := ClsSet [(46, 46); (33, 33); (63, 63)].
Definition startCls : cls :=
  ClsSet [(65, 90); (48, 57); (34, 34); (39, 39); (40, 41)].

Definition boundaryRe : regex :=
  Seq (Behind endCls) (Seq (PlusCls ClsWs) (Ahead startCls)).

Definition splitSentences (text : jsstring) : list jsstring :=
  filter truthy
    (map trim
       (split false boundaryRe (replace_g false newlineRe (lit " ") text))).

(** Each entry is a pattern, matched with the [i] flag, and its
    plain-language replacement. *)
Definition LEGAL_MAP : list (regex * jsstring) :=
  [ (Seq (word "force") (Seq (PlusCls ClsWs) (word "majeure")),
     lit "unavoidable events (e.g., natural disaster)");
    (Seq (word "indemnif") (Alt (word "y") (Alt (word "ies") (word "ication"))),
     lit "compensation if someone sues you");
    (word "waiver", lit "giving up a right intentionally");
    (Seq (word "jurisdicti") (Alt (word "on") (word "onal")),
     lit "which court's rules apply");
    (word "notwithstanding", lit "despite the above");
    (Seq (word "liabilit") (Alt (word "y") (word "ies")),
     lit "legal responsibility for harm");
    (Seq (word "confidential") (Opt (word "ity")), lit "kept private");
    (word "termination", lit "ending the agreement") ].

(** The replacer of the summary: [match => `${match} (${replacement})`]. *)
Definition gloss (replacement m : jsstring) : jsstring :=
  m ++ lit " (" ++ replacement ++ lit ")".

(** The body of [top.map]: every rule of [LEGAL_MAP] in turn, each on
    the result of the one before. *)
Definition annotate (sent : jsstring) : jsstring :=
  fold_left (fun plain rule => replace true (fst rule) (gloss (snd rule)) plain)
    LEGAL_MAP sent.

Definition keywords : list jsstring :=
  List.map lit
    [ "obligation"; "shall"; "must"; "liability"; "termination";
      "confidential"; "indemnify"; "warranty"; "payment"; "fee";
      "notice"; "force majeure"; "dispute"; "governing law"; "breach" ]%string.

Definition riskKeywords : list jsstring :=
  List.map lit
    [ "indemnify"; "liability"; "penalt"; "breach"; "terminate";
      "obligation" ]%string.

(** The objects [{ sent, score, idx }] of the scoring pass.  Scores are
    exact rationals where the engine has doubles: the keyword and length
    parts are small integers, exact in a double, and the positional
    bonuses of one document lie multiples of [1/N] apart, far more than a
    rounding step for any text a browser can hold, so the order of the
    scores is the same. *)
Record scored := mkScored { sent : jsstring; score : Q; idx : nat }.

Fixpoint mapi_from {A B} (f : A -> nat -> B) (i : nat) (l : list A) : list B :=
  match l with
  | [] => []
  | x :: l' => f x i :: mapi_from f (S i) l'
  end.

(** [Array.prototype.map] with the element and its index. *)
Definition mapi {A B} (f : A -> nat -> B) (l : list A) : list B :=
  mapi_from f O l.

(** [Array.prototype.sort] is stable (ECMAScript 2019 on); with a
    comparator that orders the elements consistently its result is the
    one stable arrangement, built here by insertion: an element moves
    behind exactly those for which the comparator is positive. *)
Fixpoint insert_by {A} (cmp : A -> A -> Q) (x : A) (l : list A) : list A :=
  match l with
  | [] => [x]
  | y :: l' =>
      if Qlt_le_dec 0 (cmp x y) then y :: insert_by cmp x l'
      else x :: l
  end.

Definition sort {A} (cmp : A -> A -> Q) (l : list A) : list A :=
  fold_right (insert_by cmp) [] l.

(** The comparator of the summary: [(a,b) => b.score - a.score]. *)
Definition by_score (a b : scored) : Q := (score b - score a)%Q.

(** The order the comparator asks for: no score rises along the list. *)
Definition falling (a b : scored) : Prop := (score b <= score a)%Q.

(** [a || d] on strings. *)
Definition or_else (a d : jsstring) : jsstring :=
  if truthy a then a else d.

(** An array index or length as a number. *)
Definition nat_Q (n : nat) : Q := inject_Z (Z.of_nat n).

Section App.

(** [String.prototype.toLowerCase] follows the Unicode tables of the
    engine and is left open here. *)
Variable toLowerCase : jsstring -> jsstring.

(** The body of [sents.map((sent, i) => ...)]: the score of the
    sentence at index [i]. *)
Definition sentence_score (sents : list jsstring) (sent : jsstring)
    (i : nat) : Q :=
  let l := toLowerCase sent in
  let score := 0%Q in
  let score :=
    fold_left (fun score k => if includes l k then (score + 3)%Q else score)
      keywords score in
  let score := if (120 <? length sent)%nat then (score + 1)%Q else score in
  let score := if (250 <? length sent)%nat then (score + 1)%Q else score in
  (score + Qmax 0 (1 - nat_Q i / Qmax 1 (nat_Q (length sents))))%Q.

(** [maxPoints] is the integer the caller passes ([Number] of the slider
    value, 1 to 10); the default 5 of the source stands for a caller
    that passes none. *)
Definition heuristicsSummary (text : jsstring) (maxPoints : Z)
    : list jsstring :=
  let sents := splitSentences text in
  if (length sents =? 0)%nat then []
  else
    let scored :=
      mapi (fun sent i => mkScored sent (sentence_score sents sent i) i) sents in
    let scored := sort by_score scored in
    let top :=
      slice0 (Z.min maxPoints (Z.of_nat (length scored))) scored in
    List.map (fun x => annotate (sent x)) top.

Definition simpleChatAnswer (question original : jsstring)
    (summary : list jsstring) : jsstring :=
  let q := toLowerCase question in
  if negb (truthy (trim q)) then
    lit "Please ask a question about the uploaded document."
  else if includes q (lit "terminate") then
    let s := filter (test true (word "terminate")) (splitSentences original) in
    or_else (join (lit " ") (slice0 3 s))
      (lit "No explicit termination clause found.")
  else if includes q (lit "payment") || includes q (lit "fee") then
    let s :=
      filter (test true (Alt (word "payment") (Alt (word "fee") (word "price"))))
        (splitSentences original) in
    or_else (join (lit " ") (slice0 3 s)) (lit "No payment clause found.")
  else if (0 <? length summary)%nat then join (lit " ") (slice0 2 summary)
  else lit "No relevant answer found.".

(** The [useMemo] body of the component, as a function of [text]. *)
Definition risks (text : jsstring) : list jsstring :=
  slice0 6
    (filter
       (fun s => existsb (fun k => includes (toLowerCase s) k) riskKeywords)
       (splitSentences text)).

(** The entries of the scoring pass, before the sort. *)
Definition scoring (sents : list jsstring) : list scored :=
  mapi (fun sent i => mkScored sent (sentence_score sents sent i) i) sents.

(** In the words of the specification: the number of keywords of the
    list that occur in the lower-cased sentence, each counted once. *)
Definition keyword_hits (sent : jsstring) : nat :=
  length (filter (includes (toLowerCase sent)) keywords).

(** In the words of the specification: three per keyword found, one for
    more than 120 characters, one more for more than 250, and the
    positional bonus [max(0, 1 - i / max(1, N))]. *)
Definition spec_score (N i : nat) (sent : jsstring) : Q :=
  (3 * nat_Q (keyword_hits sent)
   + (if (120 <? length sent)%nat then 1 else 0)
   + (if (250 <? length sent)%nat then 1 else 0)
   + Qmax 0 (1 - nat_Q i / Qmax 1 (nat_Q N)))%Q.

(** An entry of the ranking: its sentence stands at its index in the
    document and its score is the one the specification describes. *)
Definition scored_as_specified (sents : list jsstring) (x : scored) : Prop :=
  nth_error sents (idx x) = Some (sent x) /\
  (score x == spec_score (length sents) (idx x) (sent x))%Q.

(** The ranking behind a summary: the fifteen keywords are distinct;
    there is a list of scored entries, one for every sentence of the
    text, each scored as the specification describes, in falling order
    of score, and the summary is made of the annotated sentences of its
    first [maxPoints] entries. *)
Definition ranked_summary (text : jsstring) (maxPoints : Z) : Prop :=
  let sents := splitSentences text in
  NoDup keywords /\ length keywords = 15%nat /\
  exists ranked : list scored,
    Permutation (map idx ranked) (seq 0 (length sents)) /\
    Forall (scored_as_specified sents) ranked /\
    StronglySorted falling ranked /\
    heuristicsSummary text maxPoints =
    map (fun x => annotate (sent x)) (firstn (Z.to_nat maxPoints) ranked).

(** The test of the risk filter. *)
Definition risky (s : jsstring) : bool :=
  existsb (fun k => includes (toLowerCase s) k) riskKeywords.

End App.

(** [toLowerCase] on text whose code units are all ASCII. *)
Definition lower_cu (ch : cu) : cu :=
  if (65 <=? ch) && (ch <=? 90) then ch + 32 else ch.

Definition toLowerCaseAscii (s : jsstring) : jsstring := List.map lower_cu s.

(** ** Predicates of the statements *)

(** A code unit that is not white space. *)
Definition non_ws (c : cu) : bool := negb (is_ws c).

(** [head_ok p l]: [l] does not start with an element satisfying [p]. *)
Definition head_ok {A} (p : A -> bool) (l : list A) : Prop :=
  match l with
  | [] => True
  | x :: _ => p x = false
  end.

(** The code unit just before the position that follows [pre]. *)
Definition before (pre : jsstring) : option cu := hd_error (rev pre).

(** The sentence boundary without the matcher: after one of [. ! ?], the
    whole run of white space, when the run is not empty and a start
    character follows it; the result is the length of the run. *)
Definition boundary_len (prev : option cu) (s : jsstring) : option nat :=
  match prev with
  | Some p =>
      if in_cls endCls p then
        match s with
        | ch :: _ =>
            if is_ws ch then
              match dropWhile is_ws s with
              | c :: rest =>
                  if in_cls startCls c
                  then Some (length s - length (c :: rest))%nat
                  else None
              | [] => None
              end
            else None
        | [] => None
        end
      else None
  | None => None
  end.

(** The reading of the reconstruction property of [split]: the result
    is not empty, and its concatenation and the text with line feeds
    replaced by spaces are the same once white space is left out. *)
Definition split_reconstructs (text : jsstring) : Prop :=
  splitSentences text <> [] /\
  filter non_ws (concat (splitSentences text)) =
  filter non_ws (replace_g false newlineRe (lit " ") text).

(** The four fixed messages of [simpleChatAnswer]. *)
Definition prompt_msg : jsstring :=
  lit "Please ask a question about the uploaded document.".
Definition no_termination_msg : jsstring :=
  lit "No explicit termination clause found.".
Definition no_payment_msg : jsstring := lit "No payment clause found.".
Definition no_answer_msg : jsstring := lit "No relevant answer found.".

(** One rule of [LEGAL_MAP] applied to a string. *)
Definition apply_rule (rule : regex * jsstring) (s : jsstring) : jsstring :=
  replace true (fst rule) (gloss (snd rule)) s.

(** A continuation pair that commutes with lower-casing the input. *)
Definition lower_cont (k k' : cont) : Prop :=
  forall p s,
    k' (option_map lower_cu p) (toLowerCaseAscii s) =
    option_map toLowerCaseAscii (k p s).

(** Where the first match starts and how long it is. *)
Definition match_span (r : regex) (s : jsstring) : option (nat * nat) :=
  match search true r s with
  | Some (pre, m, _) => Some (length pre, length m)
  | None => None
  end.

(** The terms the rules of [LEGAL_MAP] stand for, in their order. *)
Definition rule_terms : list jsstring :=
  List.map lit
    [ "force majeure"; "indemnify"; "waiver"; "jurisdiction";
      "notwithstanding"; "liability"; "confidentiality"; "termination" ]%string.

(** [first_match r s pre m post]: [s] is [pre ++ m ++ post], the pattern
    matches [m] right after [pre], and it matches at no earlier place. *)
Definition first_match (r : regex) (s pre m post : jsstring) : Prop :=
  s = pre ++ m ++ post /\
  exec_at true r (before pre) (m ++ post) = Some (length m) /\
  (forall a b, pre = a ++ b -> b <> [] ->
     exec_at true r (before a) (b ++ m ++ post) = None).

(** [no_match r s]: the pattern matches at no place of [s]. *)
Definition no_match (r : regex) (s : jsstring) : Prop :=
  forall a b, s = a ++ b -> exec_at true r (before a) b = None.

(** What one rule does to a string: the explanation in parentheses goes
    right after the first match and nothing else changes; without a
    match the string stays as it is. *)
Definition rule_step (rule : regex * jsstring) : Prop :=
  forall s,
    (exists pre m post,
        first_match (fst rule) s pre m post /\
        apply_rule rule s =
        pre ++ m ++ lit " (" ++ snd rule ++ lit ")" ++ post) \/
    (no_match (fst rule) s /\ apply_rule rule s = s).

(** The last clause of C3, for one rule and one summary point: if the
    point has a match of the rule, its first match is followed at once
    by the explanation in parentheses. *)
Definition glossed_at_first_match (rule : regex * jsstring) (p : jsstring)
    : Prop :=
  test true (fst rule) p = true ->
  exists pre m post,
    search true (fst rule) p = Some (pre, m, post) /\
    starts_with (lit " (" ++ snd rule ++ lit ")") post = true.

(** ** Sentence structure *)

(** The last code unit of [s] is one of [. ! ?] (the class behind a
    boundary); false for the empty string. *)
Definition ends_sentence (s : jsstring) : bool := in_cls endCls (last s 0).

(** The first code unit of [s] is in the class ahead of a boundary;
    false for the empty string. *)
Definition starts_sentence (s : jsstring) : bool := in_cls startCls (hd 0 s).

(** A string of white space only. *)
Definition blank (s : jsstring) : Prop := Forall (fun c => is_ws c = true) s.

(** [cut s ps]: [s] is the pieces [ps] with a non-empty run of white
    space between neighbours, every piece but the last ending a sentence
    and every piece but the first starting one. *)
Inductive cut : jsstring -> list jsstring -> Prop :=
| cut_last (p : jsstring) : cut p [p]
| cut_more (p w rest : jsstring) (ps : list jsstring) :
    ends_sentence p = true -> w <> [] -> blank w ->
    starts_sentence rest = true -> cut rest ps ->
    cut (p ++ w ++ rest) (p :: ps).

(** The scan state of [split_from] between matches: the code unit before
    the scan position is the last one of the current piece, or, at the
    start of a piece, not a sentence end. *)
Definition tracks (prev : option cu) (cur_rev : jsstring) : Prop :=
  match cur_rev with
  | [] => forall p, prev = Some p -> in_cls endCls p = false
  | c :: _ => prev = Some c
  end.

(** The code unit before the position reached after reading [w]. *)
Definition prev_after (prev : option cu) (w : jsstring) : option cu :=
  fold_left (fun _ c => Some c) w prev.

(** Sentences laid between gaps: one gap before each sentence and one
    after the last. *)
Fixpoint weave (gaps sents : list jsstring) : jsstring :=
  match gaps, sents with
  | g :: gaps', s :: sents' => g ++ s ++ weave gaps' sents'
  | g :: _, [] => g
  | [], _ => []
  end.

(** The text with every line feed turned into a space. *)
Definition unwrap_lines (text : jsstring) : jsstring :=
  List.map (fun c => if c =? 10 then 32 else c) text.

(** The number of sentence-end marks [. ! ?] in a string. *)
Definition count_ends (s : jsstring) : nat :=
  length (filter (in_cls endCls) s).

(** ** Ranking and annotation *)

(** The array [scored] of [heuristicsSummary] after its sort. *)
Definition ranking (toLowerCase : jsstring -> jsstring) (text : jsstring)
    : list scored :=
  sort by_score (scoring toLowerCase (splitSentences text)).

(** [a] scores strictly more than [b]. *)
Definition outranks (a b : scored) : Prop := (score b < score a)%Q.

(** The whole-number part of a score: three per keyword found and the
    two length bonuses. *)
Definition base_score (toLowerCase : jsstring -> jsstring) (s : jsstring) : Z :=
  (3 * Z.of_nat (keyword_hits toLowerCase s)
   + (if (120 <? length s)%nat then 1 else 0)
   + (if (250 <? length s)%nat then 1 else 0))%Z.

(** The positional bonus of the sentence at index [i] of [N]. *)
Definition bonus (N i : nat) : Q :=
  Qmax 0 (1 - nat_Q i / Qmax 1 (nat_Q N)).

(** [embeds s l]: [s] is [l] with some code units left out. *)
Inductive embeds : jsstring -> jsstring -> Prop :=
| embeds_nil (l : jsstring) : embeds [] l
| embeds_keep (c : cu) (s l : jsstring) : embeds s l -> embeds (c :: s) (c :: l)
| embeds_skip (c : cu) (s l : jsstring) : embeds s l -> embeds s (c :: l).

(** All the rules of a list in turn, as [annotate] does with
    [LEGAL_MAP]. *)
Definition apply_rules (rules : list (regex * jsstring)) (s : jsstring)
    : jsstring :=
  fold_left (fun plain rule => apply_rule rule plain) rules s.

(** ** The patterns of the answers *)

(** [/terminate/i] *)
Definition terminateRe : regex := word "terminate".

(** [/(payment|fee|price)/i] *)
Definition paymentRe : regex :=
  Alt (word "payment") (Alt (word "fee") (word "price")).

(** [k'] succeeds on an input lengthened by [t] wherever [k] succeeds. *)
Definition extends_by (t : jsstring) (k k' : cont) : Prop :=
  forall p s, k p s <> None -> k' p (s ++ t) <> None.

(** ** The component *)

Module App.

(** The state of the component, one field for each [useState].  The
    slider hands [maxPoints] over as the decimal string of an integer;
    the field holds the integer [Number(maxPoints)] makes of it. *)
Record state := mkState {
  text : jsstring;
  uploadedName : jsstring;
  summaryPoints : list jsstring;
  chatLog : list (jsstring * jsstring);
  q : jsstring;
  maxPoints : Z
}.

Definition initial : state := mkState [] [] [] [] [] 5.

(** What the user and the file reader can make happen: typing in the
    text area, choosing a file (or none), the reader finishing with the
    content of a file, moving the slider, the Simplify button, typing a
    question and the Ask button. *)
Inductive event :=
| TextInput (v : jsstring)
| FileChosen (name : option jsstring)
| FileRead (content : jsstring)
| SliderInput (v : Z)
| SimplifyClick
| QuestionInput (v : jsstring)
| AskClick.

Section Handlers.

Variable toLowerCase : jsstring -> jsstring.

(** The synchronous part of [handleFile]: no file, no change; else the
    name is kept (the content arrives later, as [FileRead]). *)
Definition handleFile (name : option jsstring) (st : state) : state :=
  match name with
  | None => st
  | Some n =>
      mkState (text st) n (summaryPoints st) (chatLog st) (q st) (maxPoints st)
  end.

Definition generateSummary (st : state) : state :=
  mkState (text st) (uploadedName st)
    (heuristicsSummary toLowerCase (text st) (maxPoints st))
    [] (q st) (maxPoints st).

Definition handleAsk (st : state) : state :=
  if negb (truthy (trim (q st))) then st
  else
    let answer :=
      simpleChatAnswer toLowerCase (q st) (text st) (summaryPoints st) in
    mkState (text st) (uploadedName st) (summaryPoints st)
      (chatLog st ++ [(q st, answer)]) [] (maxPoints st).

Definition step (ev : event) (st : state) : state :=
  match ev with
  | TextInput v | FileRead v =>
      mkState v (uploadedName st) (summaryPoints st) (chatLog st) (q st)
        (maxPoints st)
  | FileChosen name => handleFile name st
  | SliderInput v =>
      mkState (text st) (uploadedName st) (summaryPoints st) (chatLog st)
        (q st) v
  | SimplifyClick => generateSummary st
  | QuestionInput v =>
      mkState (text st) (uploadedName st) (summaryPoints st) (chatLog st) v
        (maxPoints st)
  | AskClick => handleAsk st
  end.

(** The state after a sequence of events on the freshly mounted
    component. *)
Definition run (evs : list event) : state :=
  fold_left (fun st ev => step ev st) evs initial.

End Handlers.

(** The slider is an [input] of type range with [min] 1 and [max] 10. *)
Definition valid (ev : event) : Prop :=
  match ev with
  | SliderInput v => (1 <= v <= 10)%Z
  | _ => True
  end.

(** What holds of every state the component reaches: the point count is
    in the range of the slider, the summary has at most ten points and
    none is empty, and every exchange of the chat has a question that is
    not blank and an answer that is not empty. *)
Definition invariant (st : state) : Prop :=
  (1 <= maxPoints st <= 10)%Z /\
  (length (summaryPoints st) <= 10)%nat /\
  Forall (fun p => truthy p = true) (summaryPoints st) /\
  Forall (fun e => truthy (trim (fst e)) = true /\ truthy (snd e) = true)
    (chatLog st).

End App.

(** ** Order of the ranking and quiet pieces *)

(** [a] has more keyword and length points than [b], or as many and an
    earlier place in the document. *)
Definition ranks_before (toLowerCase : jsstring -> jsstring) (a b : scored)
    : Prop :=
  (base_score toLowerCase (sent b) < base_score toLowerCase (sent a))%Z \/
  (base_score toLowerCase (sent a) = base_score toLowerCase (sent b) /\
   (idx a < idx b)%nat).

(** No sentence boundary at any place inside [p] (after its first code
    unit). *)
Definition quiet (p : jsstring) : Prop :=
  forall a b, p = a ++ b -> a <> [] -> boundary_len (before a) b = None.

(** ** What a glossary pattern can match *)

(** An ASCII letter. *)
Definition is_letter (c : cu) : bool :=
  ((65 <=? c) && (c <=? 90)) || ((97 <=? c) && (c <=? 122)).

(** A letter or white space: what the glossary patterns consume. *)
Definition okchar (c : cu) : bool := is_letter c || is_ws c.

(** A pattern of letters and [\s] only, without lookaround. *)
Fixpoint wordy (r : regex) : bool :=
  match r with
  | Eps => true
  | Chr c => is_letter c
  | Cls c | PlusCls c => match c with ClsWs => true | ClsSet _ => false end
  | Seq a b | Alt a b => wordy a && wordy b
  | Opt a => wordy a
  | Behind _ | Ahead _ => false
  end.

(** Every match of the pattern consumes something. *)
Fixpoint nonempty (r : regex) : bool :=
  match r with
  | Chr _ | Cls _ | PlusCls _ => true
  | Seq a b => nonempty a || nonempty b
  | Alt a b => nonempty a && nonempty b
  | Eps | Opt _ | Behind _ | Ahead _ => false
  end.

(** Every match of the pattern that consumes something ends with a
    letter. *)
Fixpoint tailok (r : regex) : bool :=
  match r with
  | Chr c => is_letter c
  | Cls _ | PlusCls _ => false
  | Seq a b => tailok b && (tailok a || nonempty b)
  | Alt a b => tailok a && tailok b
  | Opt a => tailok a
  | Eps | Behind _ | Ahead _ => true
  end.

Definition good (r : regex) : bool := wordy r && nonempty r && tailok r.

(** Empty, or ending with a letter. *)
Definition ends_letter (m : jsstring) : Prop :=
  m = [] \/ is_letter (last m 0) = true.

(** What holds of the text [pre] a pattern has consumed: letters and
    white space only, not empty and ending with a letter when the
    pattern says so, and matched again by the pattern wherever it is
    put. *)
Definition consumed (r : regex) (pre : jsstring) : Prop :=
  Forall (fun c => okchar c = true) pre /\
  (nonempty r = true -> pre <> []) /\
  (tailok r = true -> ends_letter pre) /\
  (forall prev' y' (K : cont),
      (forall q, K q y' <> None) ->
      rmatch true r prev' (pre ++ y') K <> None).

(** An explanation as the replacer writes it: a space and the
    explanation in parentheses. *)
Definition paren (e : jsstring) : jsstring := lit " (" ++ e ++ lit ")".

(** Every pattern of the rules is [good] and occurs in none of the
    explanations. *)
Definition glossary_ok (rules : list (regex * jsstring)) : bool :=
  forallb
    (fun rule =>
       good (fst rule) &&
       forallb (fun rule' => negb (test true (fst rule) (snd rule'))) rules)
    rules.

(** * Properties *)

(** ** Lists, [trim] and [slice] *)

Lemma dropWhile_head_ok {A} (p : A -> bool) (l : list A) :
  head_ok p (dropWhile p l).
Proof.
  induction l as [|x l IH]; simpl; auto.
  destruct (p x) eqn:E; simpl; auto.
Qed.

Lemma dropWhile_ext {A} (p q : A -> bool) (H : forall x, p x = q x)
    (l : list A) :
  dropWhile p l = dropWhile q l.
Proof.
  induction l as [|x l IH]; simpl; auto. rewrite H, IH. reflexivity.
Qed.

Lemma dropWhile_fixed {A} (p : A -> bool) (l : list A) :
  head_ok p l -> dropWhile p l = l.
Proof.
  destruct l as [|x l]; simpl; auto.
  intros ->. reflexivity.
Qed.

Lemma dropWhile_split {A} (p : A -> bool) (l : list A) :
  exists pre, l = pre ++ dropWhile p l /\ Forall (fun x => p x = true) pre.
Proof.
  induction l as [|x l (pre & E & F)]; simpl.
  - exists []. split; auto.
  - destruct (p x) eqn:Px.
    + exists (x :: pre). split.
      * simpl. f_equal. exact E.
      * constructor; assumption.
    + exists []. split; auto.
Qed.

Lemma filter_all_false {A} (p q : A -> bool) (l : list A) :
  Forall (fun x => p x = true) l -> (forall x, p x = true -> q x = false) ->
  filter q l = [].
Proof.
  intros F H. induction F as [|x l Px _ IH]; simpl; auto.
  rewrite (H x Px). exact IH.
Qed.

Lemma filter_rev {A} (q : A -> bool) (l : list A) :
  filter q (rev l) = rev (filter q l).
Proof.
  induction l as [|x l IH]; simpl; auto.
  rewrite filter_app, IH. simpl.
  destruct (q x); simpl; auto using app_nil_r.
Qed.

Lemma filter_non_ws_dropWhile (l : jsstring) :
  filter non_ws (dropWhile is_ws l) = filter non_ws l.
Proof.
  destruct (dropWhile_split is_ws l) as (pre & E & F).
  rewrite E at 2. rewrite filter_app.
  rewrite (filter_all_false is_ws non_ws pre F); auto.
  intros x Hx. unfold non_ws. rewrite Hx. reflexivity.
Qed.

(** [trim] removes white space only. *)
Lemma filter_non_ws_trim (s : jsstring) :
  filter non_ws (trim s) = filter non_ws s.
Proof.
  unfold trim.
  rewrite filter_rev, filter_non_ws_dropWhile, filter_rev, rev_involutive.
  apply filter_non_ws_dropWhile.
Qed.

Lemma In_dropWhile {A} (p : A -> bool) (l : list A) (x : A) :
  In x (dropWhile p l) -> In x l.
Proof.
  destruct (dropWhile_split p l) as (pre & E & _).
  intro H. rewrite E. apply in_or_app. right. exact H.
Qed.

Lemma In_trim (s : jsstring) (c : cu) : In c (trim s) -> In c s.
Proof.
  unfold trim. intro H.
  apply In_rev in H. apply In_dropWhile in H.
  apply In_rev in H. apply In_dropWhile in H. exact H.
Qed.

(** A trimmed string neither starts nor ends with white space. *)
Lemma trim_head_ok (s : jsstring) : head_ok is_ws (trim s).
Proof.
  unfold trim.
  pose proof (dropWhile_head_ok is_ws s) as H.
  destruct (dropWhile_split is_ws (rev (dropWhile is_ws s))) as (pre & E & _).
  set (d := dropWhile is_ws s) in *.
  set (e := dropWhile is_ws (rev d)) in *.
  assert (D : d = rev e ++ rev pre).
  { rewrite <- rev_app_distr, <- E, rev_involutive. reflexivity. }
  destruct (rev e) as [|x t] eqn:R; simpl; auto.
  rewrite D in H. simpl in H. exact H.
Qed.

Lemma trim_last_ok (s : jsstring) : head_ok is_ws (rev (trim s)).
Proof.
  unfold trim. rewrite rev_involutive. apply dropWhile_head_ok.
Qed.

Lemma trim_fixed (s : jsstring) :
  head_ok is_ws s -> head_ok is_ws (rev s) -> trim s = s.
Proof.
  intros H1 H2. unfold trim.
  rewrite (dropWhile_fixed _ _ H1), (dropWhile_fixed _ _ H2).
  apply rev_involutive.
Qed.

Lemma trim_idempotent (s : jsstring) : trim (trim s) = trim s.
Proof.
  apply trim_fixed; [apply trim_head_ok | apply trim_last_ok].
Qed.

Lemma concat_filter_truthy (l : list jsstring) :
  concat (filter truthy l) = concat l.
Proof.
  induction l as [|x l IH]; simpl; auto.
  destruct x; simpl; [exact IH | now rewrite IH].
Qed.

Lemma filter_concat_map_trim (l : list jsstring) :
  filter non_ws (concat (map trim l)) = filter non_ws (concat l).
Proof.
  induction l as [|x l IH]; simpl; auto.
  rewrite !filter_app, IH, filter_non_ws_trim. reflexivity.
Qed.

Lemma slice0_length {A} (e : Z) (l : list A) :
  (0 <= e)%Z ->
  Z.of_nat (length (slice0 e l)) = Z.min e (Z.of_nat (length l)).
Proof.
  intro He. unfold slice0.
  destruct (Z.ltb_spec e 0); [lia|].
  rewrite length_firstn. lia.
Qed.

Lemma slice0_firstn {A} (e : Z) (l : list A) :
  (0 <= e)%Z -> slice0 e l = firstn (Z.to_nat e) l.
Proof.
  intro He. unfold slice0.
  destruct (Z.ltb_spec e 0); [lia|].
  destruct (Z.min_spec e (Z.of_nat (length l))) as [[_ ->]|[L ->]]; auto.
  rewrite Nat2Z.id, firstn_all. symmetry. apply firstn_all2. lia.
Qed.

Lemma mapi_from_length {A B} (f : A -> nat -> B) (l : list A) (i : nat) :
  length (mapi_from f i l) = length l.
Proof.
  revert i. induction l as [|x l IH]; simpl; intros; auto.
Qed.

(** ** The sort *)

Section Sorting.
Context {A : Type} (cmp : A -> A -> Q).

Lemma insert_by_perm (x : A) (l : list A) :
  Permutation (insert_by cmp x l) (x :: l).
Proof.
  induction l as [|y l IH]; simpl; auto.
  destruct (Qlt_le_dec 0 (cmp x y)); auto.
  rewrite IH. apply perm_swap.
Qed.

Lemma sort_perm (l : list A) : Permutation (sort cmp l) l.
Proof.
  induction l as [|x l IH]; simpl; auto.
  rewrite insert_by_perm. now constructor.
Qed.

Lemma sort_length (l : list A) : length (sort cmp l) = length l.
Proof. apply Permutation_length, sort_perm. Qed.

End Sorting.

(** ** The matcher *)

(** A successful match has called its continuation on a suffix of the
    input. *)
Lemma star_cls_calls (p : cu -> bool) (s : jsstring) :
  forall prev k rest,
    star_cls p prev s k = Some rest ->
    exists pre s' prev',
      s = pre ++ s' /\ Forall (fun c => p c = true) pre /\
      k prev' s' = Some rest.
Proof.
  induction s as [|ch s IH]; simpl; intros prev k rest H.
  - exists [], [], prev. auto.
  - destruct (p ch) eqn:P.
    + destruct (star_cls p (Some ch) s k) as [r|] eqn:E.
      * destruct (IH _ _ _ E) as (pre & s' & prev' & -> & F & K).
        exists (ch :: pre), s', prev'. repeat split; auto.
        congruence.
      * exists [], (ch :: s), prev. auto.
    + exists [], (ch :: s), prev. auto.
Qed.

Lemma rmatch_calls (i : bool) (r : regex) :
  forall prev s k rest,
    rmatch i r prev s k = Some rest ->
    exists pre s' prev', s = pre ++ s' /\ k prev' s' = Some rest.
Proof.
  induction r as [ |c|c|r1 IH1 r2 IH2|r1 IH1 r2 IH2|r1 IH1|c|c|c];
    simpl; intros prev s k rest H.
  - exists [], s, prev. auto.
  - destruct s as [|ch s]; [discriminate|].
    destruct (chr_match i c ch); [|discriminate].
    exists [ch], s, (Some ch). auto.
  - destruct s as [|ch s]; [discriminate|].
    destruct (cls_match i c ch); [|discriminate].
    exists [ch], s, (Some ch). auto.
  - destruct (IH1 _ _ _ _ H) as (pre1 & s1 & p1 & -> & H1).
    destruct (IH2 _ _ _ _ H1) as (pre2 & s2 & p2 & -> & H2).
    exists (pre1 ++ pre2), s2, p2. now rewrite app_assoc.
  - destruct (rmatch i r1 prev s k) eqn:E.
    + injection H as <-. apply (IH1 _ _ _ _ E).
    + apply (IH2 _ _ _ _ H).
  - destruct (rmatch i r1 prev s k) eqn:E.
    + injection H as <-. apply (IH1 _ _ _ _ E).
    + exists [], s, prev. auto.
  - destruct s as [|ch s]; [discriminate|].
    destruct (cls_match i c ch); [|discriminate].
    destruct (star_cls_calls _ _ _ _ _ H) as (pre & s' & p' & -> & _ & K).
    exists (ch :: pre), s', p'. auto.
  - destruct prev as [ch|]; [|discriminate].
    destruct (cls_match i c ch); [|discriminate].
    exists [], s, (Some ch). auto.
  - destruct s as [|ch s]; [discriminate|].
    destruct (cls_match i c ch); [|discriminate].
    exists [], (ch :: s), prev. auto.
Qed.

(** A match consumes a prefix of what is left of the input. *)
Lemma exec_at_some (i : bool) (r : regex) prev s n :
  exec_at i r prev s = Some n ->
  exists m post, s = m ++ post /\ length m = n.
Proof.
  unfold exec_at.
  destruct (rmatch i r prev s _) as [rest|] eqn:E; [|discriminate].
  intros [= <-].
  destruct (rmatch_calls _ _ _ _ _ _ E) as (pre & s' & p' & -> & [= ->]).
  exists pre, rest. split; auto. rewrite length_app. lia.
Qed.

Lemma exec_at_firstn_skipn (i : bool) (r : regex) prev s n :
  exec_at i r prev s = Some n ->
  s = firstn n s ++ skipn n s /\ length (firstn n s) = n.
Proof.
  intro H. destruct (exec_at_some _ _ _ _ _ H) as (m & post & -> & L).
  split.
  - now rewrite firstn_skipn.
  - rewrite length_firstn, length_app. lia.
Qed.

(** [search] returns the leftmost position where the pattern matches,
    and [None] only when no position matches. *)
Lemma search_from_spec (i : bool) (r : regex) (s : jsstring) :
  forall pre_rev,
    match search_from i r (hd_error pre_rev) pre_rev s with
    | Some (pre, m, post) =>
        exists skipped,
          pre = rev pre_rev ++ skipped /\ s = skipped ++ m ++ post /\
          exec_at i r (hd_error (rev skipped ++ pre_rev)) (m ++ post)
            = Some (length m) /\
          (forall a b, skipped = a ++ b -> b <> [] ->
             exec_at i r (hd_error (rev a ++ pre_rev)) (b ++ m ++ post) = None)
    | None =>
        forall a b, s = a ++ b ->
          exec_at i r (hd_error (rev a ++ pre_rev)) b = None
    end.
Proof.
  induction s as [|ch s IH]; intro pre_rev; simpl.
  - destruct (exec_at i r (hd_error pre_rev) []) as [n|] eqn:E.
    + destruct (exec_at_firstn_skipn _ _ _ _ _ E) as (S1 & L).
      exists []. rewrite app_nil_r. simpl. repeat split; auto.
      * rewrite L, <- S1. exact E.
      * intros [|? ?] [|? ?]; simpl; congruence.
    + intros a b H. symmetry in H. apply app_eq_nil in H as [-> ->]. exact E.
  - destruct (exec_at i r (hd_error pre_rev) (ch :: s)) as [n|] eqn:E.
    + destruct (exec_at_firstn_skipn _ _ _ _ _ E) as (S1 & L).
      exists []. rewrite app_nil_r. cbn [app rev]. repeat split; auto.
      * rewrite L, <- S1. exact E.
      * intros [|? ?] [|? ?]; simpl; congruence.
    + specialize (IH (ch :: pre_rev)). cbn [hd_error] in IH.
      destruct (search_from i r (Some ch) (ch :: pre_rev) s)
        as [[[pre m] post]|].
      * destruct IH as (sk & -> & -> & M & Early).
        exists (ch :: sk). cbn [rev app]. rewrite <- !app_assoc. cbn [app].
        repeat split; auto.
        intros [|x a] b Hab Hb; cbn [app rev] in *.
        -- subst b. exact E.
        -- injection Hab as <- ->. rewrite <- app_assoc. cbn [app].
           now apply Early.
      * intros [|x a] b Hab; cbn [app rev] in *.
        -- subst b. exact E.
        -- injection Hab as <- ->. rewrite <- app_assoc. cbn [app].
           now apply IH.
Qed.

Lemma search_some (i : bool) (r : regex) (s pre m post : jsstring) :
  search i r s = Some (pre, m, post) ->
  s = pre ++ m ++ post /\
  exec_at i r (before pre) (m ++ post) = Some (length m) /\
  (forall a b, pre = a ++ b -> b <> [] ->
     exec_at i r (before a) (b ++ m ++ post) = None).
Proof.
  intro H. pose proof (search_from_spec i r s []) as S.
  cbn [hd_error] in S. unfold search in H. rewrite H in S.
  destruct S as (sk & E1 & E2 & M & Early). cbn [rev app] in E1. subst sk.
  unfold before. split; [exact E2|]. split.
  - now rewrite app_nil_r in M.
  - intros a b Hab Hb. specialize (Early a b Hab Hb).
    now rewrite app_nil_r in Early.
Qed.

Lemma search_none (i : bool) (r : regex) (s : jsstring) :
  search i r s = None ->
  forall a b, s = a ++ b -> exec_at i r (before a) b = None.
Proof.
  intro H. pose proof (search_from_spec i r s []) as S.
  cbn [hd_error] in S. unfold search in H. rewrite H in S.
  intros a b Hab. specialize (S a b Hab). unfold before.
  now rewrite app_nil_r in S.
Qed.

(** ** Newline replacement and the sentence boundary *)

Lemma exec_at_newline prev (s : jsstring) :
  exec_at false newlineRe prev s =
  match s with
  | ch :: _ => if 10 =? ch then Some 1%nat else None
  | [] => None
  end.
Proof.
  unfold exec_at, newlineRe. destruct s as [|ch s]; cbn [rmatch chr_match]; auto.
  destruct (10 =? ch); auto. f_equal. cbn [length]. lia.
Qed.

(** [text.replace(/\n/g, " ")] turns every line feed into a space and
    keeps every other code unit. *)
Lemma replace_newlines (s : jsstring) :
  replace_g false newlineRe (lit " ") s =
  map (fun c => if c =? 10 then 32 else c) s.
Proof.
  unfold replace_g. generalize (@None cu) as prev.
  induction s as [|ch s IH]; intro prev.
  - reflexivity.
  - cbn [replace_g_from map]. rewrite exec_at_newline.
    rewrite (N.eqb_sym ch 10).
    destruct (10 =? ch); rewrite IH; reflexivity.
Qed.

Lemma replace_newlines_no_lf (s : jsstring) :
  ~ In 10 (replace_g false newlineRe (lit " ") s).
Proof.
  rewrite replace_newlines. intro H. apply in_map_iff in H as (c & E & _).
  destruct (N.eqb_spec c 10); congruence.
Qed.

Lemma replace_newlines_non_ws (s : jsstring) :
  filter non_ws (replace_g false newlineRe (lit " ") s) = filter non_ws s.
Proof.
  rewrite replace_newlines.
  induction s as [|c s IH]; simpl; auto.
  destruct (N.eqb_spec c 10) as [->|_]; simpl; rewrite IH; reflexivity.
Qed.

(** A sentence boundary consumes white space and nothing else. *)
Lemma rmatch_boundary_ws prev (s rest : jsstring) :
  rmatch false boundaryRe prev s (fun _ rest => Some rest) = Some rest ->
  exists m, s = m ++ rest /\ Forall (fun c => is_ws c = true) m.
Proof.
  unfold boundaryRe. cbn [rmatch].
  destruct prev as [p|]; [|discriminate].
  destruct (cls_match false _ p); [|discriminate].
  destruct s as [|ch s]; [discriminate|].
  destruct (cls_match false ClsWs ch) eqn:W; [|discriminate].
  intro E.
  destruct (star_cls_calls _ _ _ _ _ E) as (pre & s' & p' & -> & F & K).
  assert (rest = s') as ->.
  { destruct s' as [|c s']; [discriminate|].
    destruct (cls_match false _ c); congruence. }
  assert (Ws : forall c, cls_match false ClsWs c = true -> is_ws c = true).
  { intros c. unfold cls_match. cbn. now rewrite orb_false_r. }
  exists (ch :: pre). split; [reflexivity|].
  constructor; [now apply Ws|].
  eapply Forall_impl; [|exact F]. exact Ws.
Qed.

Lemma exec_at_boundary_ws prev (s : jsstring) (n : nat) :
  exec_at false boundaryRe prev s = Some n ->
  Forall (fun c => is_ws c = true) (firstn n s).
Proof.
  unfold exec_at.
  destruct (rmatch false boundaryRe prev s _) as [rest|] eqn:E; [|discriminate].
  destruct (rmatch_boundary_ws _ _ _ E) as (m & -> & F).
  intro H. injection H as <-.
  replace (length (m ++ rest) - length rest)%nat with (length m + 0)%nat
    by (rewrite length_app; lia).
  rewrite firstn_app_2. cbn [firstn]. now rewrite app_nil_r.
Qed.

(** Backtracking never helps a greedy run whose continuation fails on
    every member of the class. *)
Lemma star_cls_greedy (p : cu -> bool) (k : cont) (s : jsstring) :
  (forall q c s0, p c = true -> k q (c :: s0) = None) ->
  (forall q q' s0, k q s0 = k q' s0) ->
  forall prev, star_cls p prev s k = k prev (dropWhile p s).
Proof.
  intros Fail Same. induction s as [|c s IH]; intro prev; simpl; auto.
  destruct (p c) eqn:P; auto.
  rewrite (IH (Some c)), (Same (Some c) prev).
  destruct (k prev (dropWhile p s)); auto.
Qed.

Lemma ws_not_start (c : cu) : is_ws c = true -> in_cls startCls c = false.
Proof.
  unfold is_ws. rewrite !orb_true_iff, andb_true_iff, !N.eqb_eq, !N.leb_le.
  intro H. cbn.
  repeat match goal with
         | |- context [?a <=? ?b] => destruct (N.leb_spec a b)
         end; cbn; auto; lia.
Qed.

(** The matcher on the boundary pattern computes [boundary_len]. *)
Lemma exec_at_boundary prev (s : jsstring) :
  exec_at false boundaryRe prev s = boundary_len prev s.
Proof.
  assert (Plain : forall c ch, cls_match false c ch = in_cls c ch).
  { intros. unfold cls_match. cbn [andb]. apply orb_false_r. }
  unfold exec_at, boundary_len, boundaryRe. cbn [rmatch].
  destruct prev as [p|]; [|reflexivity]. rewrite Plain.
  destruct (in_cls endCls p); [|reflexivity].
  destruct s as [|ch s]; [reflexivity|]. rewrite Plain.
  cbn [in_cls dropWhile].
  destruct (is_ws ch) eqn:W; [|reflexivity].
  rewrite star_cls_greedy.
  - rewrite (dropWhile_ext _ is_ws (Plain ClsWs)).
    destruct (dropWhile is_ws s) as [|c rest]; [reflexivity|].
    rewrite Plain. destruct (in_cls startCls c); reflexivity.
  - intros q c s0 Hc. rewrite Plain in *. cbn [in_cls] in Hc.
    now rewrite (ws_not_start c Hc).
  - reflexivity.
Qed.

(** Every code unit of a piece of [split] comes from the input. *)
Lemma split_from_In (i : bool) (r : regex) (s : jsstring) :
  forall skip prev cur piece c,
    In piece (split_from i r skip prev cur s) -> In c piece ->
    In c cur \/ In c s.
Proof.
  induction s as [|ch s IH]; intros skip prev cur piece c Hp Hc.
  - destruct Hp as [<-|[]]. left. now apply In_rev.
  - cbn [split_from] in Hp.
    assert (Step : forall skip' prev' cur',
               In piece (split_from i r skip' prev' cur' s) ->
               (In c cur' -> In c cur \/ In c (ch :: s)) ->
               In c cur \/ In c (ch :: s)).
    { intros skip' prev' cur' Hp' Hcur.
      destruct (IH _ _ _ _ _ Hp' Hc) as [H|H]; auto.
      right. now right. }
    assert (Here : In c (rev cur) -> In c cur \/ In c (ch :: s)).
    { intro H. left. now apply In_rev. }
    assert (One : In c [ch] -> In c cur \/ In c (ch :: s)).
    { intros [->|[]]. right. now left. }
    destruct skip as [|n].
    + destruct (exec_at i r prev (ch :: s)) as [[|n]|].
      * destruct cur as [|x cur'].
        -- apply (Step _ _ _ Hp One).
        -- destruct Hp as [<-|Hp]; [now apply Here|].
           apply (Step _ _ _ Hp One).
      * destruct Hp as [<-|Hp]; [now apply Here|].
        apply (Step _ _ _ Hp). intros [].
      * apply (Step _ _ _ Hp). intros [->|H]; [right; now left|now left].
    + apply (Step _ _ _ Hp). intros [].
Qed.

Lemma split_In (i : bool) (r : regex) (s piece : jsstring) (c : cu) :
  In piece (split i r s) -> In c piece -> In c s.
Proof.
  unfold split. destruct s as [|ch s].
  - destruct (exec_at i r None []); [intros []|].
    intros [<-|[]] H. exact H.
  - intros Hp Hc.
    destruct (split_from_In _ _ _ _ _ _ _ _ Hp Hc) as [[]|H]. exact H.
Qed.

(** The pieces cut at sentence boundaries keep every code unit of the
    input that is not white space, in order. *)
Lemma split_from_boundary_non_ws (s : jsstring) :
  forall skip prev cur,
    (skip <> O -> cur = []) ->
    Forall (fun c => is_ws c = true) (firstn skip s) ->
    filter non_ws (concat (split_from false boundaryRe skip prev cur s)) =
    filter non_ws (rev cur) ++ filter non_ws s.
Proof.
  induction s as [|ch s IH]; intros skip prev cur Hcur Hws.
  - cbn. now rewrite !app_nil_r.
  - cbn [split_from]. destruct skip as [|n].
    + destruct (exec_at false boundaryRe prev (ch :: s)) as [[|n]|] eqn:E.
      * destruct cur as [|x cur'].
        -- rewrite IH by (auto; congruence). cbn. now destruct (non_ws ch).
        -- cbn [concat]. rewrite filter_app, IH by (auto; congruence).
           f_equal. cbn. now destruct (non_ws ch).
      * apply exec_at_boundary_ws in E. cbn [firstn] in E.
        inversion E as [|? ? W F]; subst.
        cbn [concat]. rewrite filter_app, IH by auto.
        cbn [rev filter app]. unfold non_ws at 4. rewrite W. reflexivity.
      * rewrite IH by (auto; congruence).
        cbn [rev]. rewrite filter_app, <- app_assoc. f_equal.
        cbn. now destruct (non_ws ch).
    + rewrite (Hcur (Nat.neq_succ_0 n)).
      cbn [firstn] in Hws. inversion Hws as [|? ? W F]; subst.
      rewrite IH by auto.
      cbn [rev filter app]. unfold non_ws at 2. rewrite W. reflexivity.
Qed.

Lemma split_boundary_non_ws (s : jsstring) :
  filter non_ws (concat (split false boundaryRe s)) = filter non_ws s.
Proof.
  unfold split. destruct s as [|ch s]; [reflexivity|].
  rewrite split_from_boundary_non_ws; auto.
Qed.

(** [splitSentences] keeps the text up to white space. *)
Lemma splitSentences_non_ws (text : jsstring) :
  filter non_ws (concat (splitSentences text)) = filter non_ws text.
Proof.
  unfold splitSentences.
  rewrite concat_filter_truthy, filter_concat_map_trim.
  rewrite split_boundary_non_ws. apply replace_newlines_non_ws.
Qed.

(** ** Substrings *)

Lemma starts_with_iff (k s : jsstring) :
  starts_with k s = true <-> exists post, s = k ++ post.
Proof.
  revert s. induction k as [|a k IH]; intros [|b s]; simpl.
  - split; eauto.
  - split; eauto.
  - split; [discriminate|]. intros (post & H). discriminate.
  - rewrite andb_true_iff, N.eqb_eq, IH. split.
    + intros (-> & post & ->). eauto.
    + intros (post & [= -> ->]). eauto.
Qed.

(** [includes s k] holds exactly when [k] is a contiguous part of [s]. *)
Lemma includes_iff (s k : jsstring) :
  includes s k = true <-> exists pre post, s = pre ++ k ++ post.
Proof.
  induction s as [|c s IH]; simpl.
  - rewrite orb_false_r, starts_with_iff. split.
    + intros (post & ->). exists [], post. reflexivity.
    + intros ([|? ?] & post & H); [eauto | discriminate].
  - rewrite orb_true_iff, starts_with_iff, IH. split.
    + intros [(post & ->)|(pre & post & ->)].
      * exists [], post. reflexivity.
      * exists (c :: pre), post. reflexivity.
    + intros ([|x pre] & post & H).
      * left. eauto.
      * right. injection H as <- ->. eauto.
Qed.

(** ** Sentences *)

Lemma splitSentences_nil : splitSentences [] = [].
Proof. reflexivity. Qed.

(** C5, as stated, fails: a text of one space is not empty and has no
    sentence at all, since pieces are trimmed and empty ones dropped. *)
Lemma C5_blank_text_counterexample :
  lit " " <> [] /\ ~ split_reconstructs (lit " ").
Proof.
  split; [discriminate|]. intros [H _]. apply H. reflexivity.
Qed.

(** C5, amended: for every text with a code unit that is not white
    space, [splitSentences] returns at least one sentence, and the
    concatenation of the sentences and the text with line feeds replaced
    by spaces agree once white space is left out. *)
Theorem C5_split_reconstructs (text : jsstring) :
  existsb non_ws text = true -> split_reconstructs text.
Proof.
  intro H. unfold split_reconstructs.
  rewrite replace_newlines_non_ws.
  pose proof (splitSentences_non_ws text) as R.
  split; [|exact R].
  intro E. rewrite E in R. cbn in R.
  apply existsb_exists in H as (c & Hc & Nc).
  assert (In c (filter non_ws text)) as I by (apply filter_In; auto).
  rewrite <- R in I. exact I.
Qed.

Lemma C5_split_reconstructs_witness :
  split_reconstructs (lit "A shall indemnify B. This is short.").
Proof. apply C5_split_reconstructs. reflexivity. Defined.

(** C9: every sentence returned by [splitSentences] is a non-empty
    string, is its own trimmed form, and holds no line feed. *)
Theorem C9_sentences_trimmed (text : jsstring) :
  Forall (fun s => s <> [] /\ trim s = s /\ ~ In 10 s) (splitSentences text).
Proof.
  apply Forall_forall. intros s H. unfold splitSentences in H.
  apply filter_In in H as (H & T).
  apply in_map_iff in H as (piece & <- & P).
  split; [|split].
  - intro E. rewrite E in T. discriminate.
  - apply trim_idempotent.
  - intro L. apply In_trim in L.
    apply (replace_newlines_no_lf text). exact (split_In _ _ _ _ _ P L).
Qed.

(** A trimmed sentence starts and ends with a code unit that is not
    white space. *)
Lemma splitSentences_ends (text s : jsstring) :
  In s (splitSentences text) ->
  head_ok is_ws s /\ head_ok is_ws (rev s).
Proof.
  intro H. unfold splitSentences in H.
  apply filter_In in H as (H & _).
  apply in_map_iff in H as (piece & <- & _).
  split; [apply trim_head_ok | apply trim_last_ok].
Qed.

(** ** Ranking *)

Lemma by_score_pos (a b : scored) :
  (0 < by_score a b)%Q -> (score a < score b)%Q.
Proof. unfold by_score, Qminus. intro H. now apply Qlt_minus_iff. Qed.

Lemma by_score_not_pos (a b : scored) :
  (by_score a b <= 0)%Q -> (score b <= score a)%Q.
Proof.
  unfold by_score, Qminus. intro H. apply Qnot_lt_le. intro L.
  apply Qlt_minus_iff in L. exact (Qlt_not_le _ _ L H).
Qed.

Lemma insert_by_falling (x : scored) (l : list scored) :
  StronglySorted falling l -> StronglySorted falling (insert_by by_score x l).
Proof.
  induction 1 as [|y l S IH F]; simpl.
  - repeat constructor.
  - destruct (Qlt_le_dec 0 (by_score x y)) as [P|P].
    + constructor; [exact IH|].
      apply Permutation_Forall with (x :: l).
      * symmetry. apply insert_by_perm.
      * constructor; [|exact F].
        apply Qlt_le_weak, by_score_pos, P.
    + apply by_score_not_pos in P. constructor.
      * now constructor.
      * constructor; [exact P|].
        eapply Forall_impl; [|exact F].
        intros z Hz. unfold falling in *. now apply Qle_trans with (score y).
Qed.

Lemma sort_falling (l : list scored) :
  StronglySorted falling (sort by_score l).
Proof.
  induction l as [|x l IH]; simpl; [constructor|].
  now apply insert_by_falling.
Qed.

Lemma mapi_from_Forall {A B} (f : A -> nat -> B) (P : B -> Prop)
    (l : list A) :
  forall i,
    (forall n x, nth_error l n = Some x -> P (f x (i + n)%nat)) ->
    Forall P (mapi_from f i l).
Proof.
  induction l as [|x l IH]; intros i H; simpl; constructor.
  - specialize (H O x eq_refl). now rewrite Nat.add_0_r in H.
  - apply IH. intros n y Hn. specialize (H (S n) y Hn).
    now rewrite Nat.add_succ_r in H.
Qed.

Lemma mapi_from_idx (f : jsstring -> nat -> Q) (l : list jsstring) :
  forall i,
    map idx (mapi_from (fun s i => mkScored s (f s i) i) i l) =
    seq i (length l).
Proof.
  induction l as [|x l IH]; intro i; simpl; auto.
  now rewrite IH.
Qed.

Lemma firstn_min {A} (n : nat) (l : list A) :
  firstn (Nat.min n (length l)) l = firstn n l.
Proof.
  destruct (Nat.le_ge_cases n (length l)).
  - now rewrite Nat.min_l.
  - rewrite Nat.min_r by assumption.
    rewrite firstn_all. symmetry. now apply firstn_all2.
Qed.

Lemma keywords_distinct : NoDup keywords /\ length keywords = 15%nat.
Proof.
  split; [|reflexivity].
  unfold keywords. cbn [map].
  repeat (constructor; [cbn [In]; intuition discriminate|]).
  constructor.
Qed.

(** ** The summary, the answers and the risks *)

Section Claims.

Variable toLowerCase : jsstring -> jsstring.

Lemma heuristicsSummary_unfold (text : jsstring) (maxPoints : Z) :
  heuristicsSummary toLowerCase text maxPoints =
  let sents := splitSentences text in
  let ranked := sort by_score (scoring toLowerCase sents) in
  map (fun x => annotate (sent x))
    (slice0 (Z.min maxPoints (Z.of_nat (length ranked))) ranked).
Proof.
  unfold heuristicsSummary, scoring.
  destruct (splitSentences text) as [|s l] eqn:E; [|reflexivity].
  cbn. unfold slice0. now rewrite firstn_nil.
Qed.

Lemma scoring_length (sents : list jsstring) :
  length (scoring toLowerCase sents) = length sents.
Proof. apply mapi_from_length. Qed.

(** C1: for every text and every integer [k] from 1 to 10, the summary
    has exactly [min k n] points, [n] the number of sentences of the
    text. *)
Theorem C1_summary_length (text : jsstring) (k : Z) :
  (1 <= k <= 10)%Z ->
  Z.of_nat (length (heuristicsSummary toLowerCase text k)) =
  Z.min k (Z.of_nat (length (splitSentences text))).
Proof.
  intro Hk. rewrite heuristicsSummary_unfold. cbv zeta.
  rewrite length_map, slice0_length by lia.
  rewrite sort_length, scoring_length. lia.
Qed.

(** *** The score *)

Lemma keyword_loop (l : jsstring) (ks : list jsstring) (acc : Q) :
  (fold_left (fun score k => if includes l k then score + 3 else score) ks acc
   == acc + 3 * nat_Q (length (filter (includes l) ks)))%Q.
Proof.
  revert acc. induction ks as [|k ks IH]; intro acc; cbn [fold_left filter].
  - unfold nat_Q. cbn. ring.
  - rewrite IH. destruct (includes l k); [|reflexivity].
    cbn [length]. unfold nat_Q. rewrite Nat2Z.inj_succ, <- Z.add_1_r.
    rewrite inject_Z_plus. ring.
Qed.

Lemma sentence_score_spec (sents : list jsstring) (sent : jsstring) (i : nat) :
  (sentence_score toLowerCase sents sent i == spec_score toLowerCase (length sents) i sent)%Q.
Proof.
  unfold sentence_score, spec_score, keyword_hits. cbv zeta.
  apply Qplus_comp; [|reflexivity].
  destruct (120 <? length sent)%nat, (250 <? length sent)%nat;
    rewrite keyword_loop; ring.
Qed.

Lemma scoring_as_specified (sents : list jsstring) :
  Forall (scored_as_specified toLowerCase sents) (scoring toLowerCase sents).
Proof.
  apply mapi_from_Forall. intros n x H. split; cbn.
  - exact H.
  - apply sentence_score_spec.
Qed.

(** C2: every sentence is scored as the specification describes (three
    per keyword found in the lower-cased sentence, one above 120
    characters, one more above 250, and the positional bonus), the
    scored sentences are put in falling order of score, and the summary
    is made of the first [maxPoints] of them. *)
Theorem C2_score_and_rank (text : jsstring) (maxPoints : Z) :
  (1 <= maxPoints <= 10)%Z -> ranked_summary toLowerCase text maxPoints.
Proof.
  intro Hk. unfold ranked_summary. set (sents := splitSentences text).
  split; [apply keywords_distinct|]. split; [apply keywords_distinct|].
  exists (sort by_score (scoring toLowerCase sents)).
  pose proof (sort_perm by_score (scoring toLowerCase sents)) as P.
  split; [|split; [|split]].
  - rewrite (Permutation_map idx P). unfold scoring, mapi.
    rewrite mapi_from_idx. reflexivity.
  - apply Permutation_Forall with (scoring toLowerCase sents); [now symmetry|].
    apply scoring_as_specified.
  - apply sort_falling.
  - rewrite heuristicsSummary_unfold. cbv zeta. fold sents. f_equal.
    rewrite slice0_firstn by lia.
    rewrite <- (firstn_min (Z.to_nat maxPoints)). f_equal. lia.
Qed.

(** *** Risks *)

(** C6: [risks] returns at most six sentences, each of them has one of
    the six risk keywords in its lower-cased form, and they are the
    first six (or all, when fewer) of the matching sentences of the
    document, in document order. *)
Theorem C6_risks_bounded (text : jsstring) :
  (length (risks toLowerCase text) <= 6)%nat /\
  length riskKeywords = 6%nat /\
  Forall (fun s => exists k, In k riskKeywords /\
                             includes (toLowerCase s) k = true)
    (risks toLowerCase text) /\
  exists later,
    filter (risky toLowerCase) (splitSentences text) =
    risks toLowerCase text ++ later /\
    (later = [] \/ length (risks toLowerCase text) = 6%nat).
Proof.
  unfold risks. fold (risky toLowerCase).
  set (found := filter (risky toLowerCase) (splitSentences text)).
  rewrite slice0_firstn by lia. change (Z.to_nat 6) with 6%nat.
  split; [apply firstn_le_length|]. split; [reflexivity|]. split.
  - apply Forall_forall. intros s H.
    assert (In s found) as I.
    { rewrite <- (firstn_skipn 6 found). apply in_or_app. now left. }
    apply filter_In in I as (_ & R). apply existsb_exists in R. exact R.
  - exists (skipn 6 found). split; [now rewrite firstn_skipn|].
    rewrite length_firstn.
    destruct (Nat.le_gt_cases 6 (length found)) as [L|L]; [right; lia|].
    left. apply skipn_all2. lia.
Qed.

(** *** Answers *)

(** A string that includes a word of letters does not trim to the empty
    string. *)
Lemma includes_truthy_trim (s k : jsstring) :
  existsb non_ws k = true -> includes s k = true -> truthy (trim s) = true.
Proof.
  intros Hk H. apply includes_iff in H as (pre & post & ->).
  apply existsb_exists in Hk as (c & Hc & Nc).
  assert (In c (filter non_ws (trim (pre ++ k ++ post)))) as I.
  { rewrite filter_non_ws_trim. apply filter_In. split; auto.
    apply in_or_app. right. apply in_or_app. now left. }
  destruct (trim (pre ++ k ++ post)); [destruct I | reflexivity].
Qed.

(** The termination branch: up to three sentences of the document that
    match [terminate], joined by spaces, or the fixed message. *)
Lemma terminate_branch (question original : jsstring) (summary : list jsstring) :
  includes (toLowerCase question) (lit "terminate") = true ->
  simpleChatAnswer toLowerCase question original summary =
  or_else
    (join (lit " ")
       (slice0 3 (filter (test true (word "terminate"))
                    (splitSentences original))))
    no_termination_msg.
Proof.
  intro H. unfold simpleChatAnswer. cbv zeta.
  rewrite (includes_truthy_trim _ (lit "terminate") eq_refl H), H.
  reflexivity.
Qed.

(** C10: when the lower-cased question contains [terminate], the answer
    is the same whatever the summary is. *)
Theorem C10_terminate_ignores_summary
    (question original : jsstring) (s1 s2 : list jsstring) :
  includes (toLowerCase question) (lit "terminate") = true ->
  simpleChatAnswer toLowerCase question original s1 =
  simpleChatAnswer toLowerCase question original s2.
Proof.
  intro H. now rewrite !terminate_branch.
Qed.

(** *** Glossary *)

(** Every point of the summary is a sentence of the text, annotated. *)
Lemma summary_annotated (text : jsstring) (maxPoints : Z) :
  Forall (fun p => exists s, In s (splitSentences text) /\ p = annotate s)
    (heuristicsSummary toLowerCase text maxPoints).
Proof.
  rewrite heuristicsSummary_unfold. cbv zeta.
  apply Forall_forall. intros p H.
  apply in_map_iff in H as (x & <- & H).
  exists (sent x). split; [|reflexivity].
  assert (In x (sort by_score (scoring toLowerCase (splitSentences text)))) as I.
  { unfold slice0 in H.
    match type of H with In _ (firstn ?n ?l) =>
      rewrite <- (firstn_skipn n l); apply in_or_app; now left end. }
  apply (Permutation_in _ (sort_perm _ _)) in I.
  pose proof (scoring_as_specified (splitSentences text)) as F.
  rewrite Forall_forall in F. destruct (F x I) as (N & _).
  eapply nth_error_In. exact N.
Qed.

End Claims.

(** ** Matching with the [i] flag ignores ASCII letter case *)

Lemma canonicalize_lower (ch : cu) :
  canonicalize (lower_cu ch) = canonicalize ch.
Proof.
  unfold canonicalize, lower_cu.
  destruct (N.leb_spec 65 ch), (N.leb_spec ch 90); cbn [andb]; auto.
  destruct (N.leb_spec 97 (ch + 32)), (N.leb_spec (ch + 32) 122);
    cbn [andb]; try lia.
  destruct (N.leb_spec 97 ch), (N.leb_spec ch 122); cbn [andb]; lia.
Qed.

Lemma chr_match_lower (c ch : cu) :
  chr_match true c (lower_cu ch) = chr_match true c ch.
Proof. unfold chr_match. now rewrite canonicalize_lower. Qed.

Lemma cls_match_lower (c : cls) (ch : cu) :
  cls_match true c (lower_cu ch) = cls_match true c ch.
Proof.
  unfold cls_match, lower_cu. cbn [andb].
  destruct (N.leb_spec 65 ch), (N.leb_spec ch 90); cbn [andb]; auto.
  assert (swap_case (ch + 32) = ch) as ->.
  { unfold swap_case.
    destruct (N.leb_spec 97 (ch + 32)), (N.leb_spec (ch + 32) 122);
      cbn [andb]; lia. }
  assert (swap_case ch = ch + 32) as ->.
  { unfold swap_case.
    destruct (N.leb_spec 97 ch), (N.leb_spec ch 122); cbn [andb]; try lia.
    destruct (N.leb_spec 65 ch), (N.leb_spec ch 90); cbn [andb]; lia. }
  apply orb_comm.
Qed.

Lemma star_cls_lower (c : cls) (s : jsstring) :
  forall prev k k',
    lower_cont k k' ->
    star_cls (cls_match true c) (option_map lower_cu prev)
      (toLowerCaseAscii s) k' =
    option_map toLowerCaseAscii (star_cls (cls_match true c) prev s k).
Proof.
  induction s as [|ch s IH]; intros prev k k' K.
  - apply (K prev []).
  - cbn [toLowerCaseAscii map star_cls]. rewrite cls_match_lower.
    destruct (cls_match true c ch).
    + fold (toLowerCaseAscii s).
      change (Some (lower_cu ch)) with (option_map lower_cu (Some ch)).
      rewrite (IH (Some ch) k k' K).
      destruct (star_cls (cls_match true c) (Some ch) s k); [reflexivity|].
      apply (K prev (ch :: s)).
    + apply (K prev (ch :: s)).
Qed.

Lemma rmatch_lower (r : regex) :
  forall prev s k k',
    lower_cont k k' ->
    rmatch true r (option_map lower_cu prev) (toLowerCaseAscii s) k' =
    option_map toLowerCaseAscii (rmatch true r prev s k).
Proof.
  induction r as [ |c|c|r1 IH1 r2 IH2|r1 IH1 r2 IH2|r1 IH1|c|c|c];
    intros prev s k k' K; cbn [rmatch].
  - apply K.
  - destruct s as [|ch s]; [reflexivity|].
    cbn [toLowerCaseAscii map]. rewrite chr_match_lower.
    destruct (chr_match true c ch); [|reflexivity]. apply (K (Some ch) s).
  - destruct s as [|ch s]; [reflexivity|].
    cbn [toLowerCaseAscii map]. rewrite cls_match_lower.
    destruct (cls_match true c ch); [|reflexivity]. apply (K (Some ch) s).
  - apply IH1. intros p s'. now apply IH2.
  - rewrite (IH1 prev s k k' K).
    destruct (rmatch true r1 prev s k); [reflexivity|]. now apply IH2.
  - rewrite (IH1 prev s k k' K).
    destruct (rmatch true r1 prev s k); [reflexivity|]. apply K.
  - destruct s as [|ch s]; [reflexivity|].
    cbn [toLowerCaseAscii map]. rewrite cls_match_lower.
    destruct (cls_match true c ch); [|reflexivity].
    now apply (star_cls_lower c s (Some ch)).
  - destruct prev as [ch|]; [|reflexivity].
    cbn [option_map]. rewrite cls_match_lower.
    destruct (cls_match true c ch); [|reflexivity]. apply (K (Some ch) s).
  - destruct s as [|ch s]; [reflexivity|].
    cbn [toLowerCaseAscii map]. rewrite cls_match_lower.
    destruct (cls_match true c ch); [|reflexivity]. apply (K prev (ch :: s)).
Qed.

Lemma exec_at_lower (r : regex) prev (s : jsstring) :
  exec_at true r (option_map lower_cu prev) (toLowerCaseAscii s) =
  exec_at true r prev s.
Proof.
  unfold exec_at.
  rewrite (rmatch_lower r prev s (fun _ rest => Some rest)
             (fun _ rest => Some rest)) by (intros p s'; reflexivity).
  destruct (rmatch true r prev s _); [|reflexivity].
  cbn [option_map]. unfold toLowerCaseAscii. now rewrite !length_map.
Qed.

Lemma search_from_eq (i : bool) (r : regex) prev pre_rev (s : jsstring) :
  search_from i r prev pre_rev s =
  match exec_at i r prev s with
  | Some n => Some (rev pre_rev, firstn n s, skipn n s)
  | None =>
      match s with
      | [] => None
      | ch :: s' => search_from i r (Some ch) (ch :: pre_rev) s'
      end
  end.
Proof. destruct s; reflexivity. Qed.

Lemma search_from_lower (r : regex) (s : jsstring) :
  forall prev pre_rev,
    search_from true r (option_map lower_cu prev)
      (toLowerCaseAscii pre_rev) (toLowerCaseAscii s) =
    option_map
      (fun x => (toLowerCaseAscii (fst (fst x)), toLowerCaseAscii (snd (fst x)),
                 toLowerCaseAscii (snd x)))
      (search_from true r prev pre_rev s).
Proof.
  induction s as [|ch s IH]; intros prev pre_rev;
    rewrite (search_from_eq true r prev), search_from_eq, exec_at_lower;
    (destruct (exec_at true r prev _);
     [cbn [option_map fst snd]; unfold toLowerCaseAscii;
      now rewrite map_rev, firstn_map, skipn_map|]).
  - reflexivity.
  - apply (IH (Some ch) (ch :: pre_rev)).
Qed.

(** The first match of a pattern with the [i] flag starts at the same
    place and has the same length whatever the case of the ASCII letters
    of the string. *)
Lemma match_span_lower (r : regex) (s : jsstring) :
  match_span r (toLowerCaseAscii s) = match_span r s.
Proof.
  unfold match_span, search.
  change (search_from true r None [] (toLowerCaseAscii s))
    with (search_from true r (option_map lower_cu None) (toLowerCaseAscii [])
            (toLowerCaseAscii s)).
  rewrite (search_from_lower r s None []).
  destruct (search_from true r None [] s) as [[[pre m] post]|]; [|reflexivity].
  cbn [option_map fst snd]. unfold toLowerCaseAscii. now rewrite !length_map.
Qed.

Lemma match_span_case (r : regex) (s s' : jsstring) :
  toLowerCaseAscii s = toLowerCaseAscii s' -> match_span r s = match_span r s'.
Proof.
  intro H. now rewrite <- (match_span_lower r s), H, match_span_lower.
Qed.

(** ** Glossary substitution *)

Lemma apply_rule_step (rule : regex * jsstring) : rule_step rule.
Proof.
  intro s. unfold apply_rule, replace.
  destruct (search true (fst rule) s) as [[[pre m] post]|] eqn:E.
  - left. exists pre, m, post. split.
    + exact (search_some _ _ _ _ _ _ E).
    + unfold gloss. now rewrite <- !app_assoc.
  - right. split; [|reflexivity]. exact (search_none _ _ _ E).
Qed.

(** C3, as stated, fails in its last clause: a later rule can put its
    explanation inside the text an earlier rule matched.  In the
    sentence below [notwithstanding] matches first at the tail of
    [Terminationotwithstanding] and is annotated there; the rule for
    [termination] then splits that match, and the first match of
    [notwithstanding] in the summary point is the last word, with no
    explanation after it; nowhere in the point is the term followed by
    its explanation. *)
Lemma C3_overlap_counterexample :
  let rule := (word "notwithstanding", lit "despite the above") in
  let p :=
    lit "Termination (ending the agreement)otwithstanding (despite the above) notwithstanding" in
  In rule LEGAL_MAP /\
  In p (heuristicsSummary toLowerCaseAscii
          (lit "Terminationotwithstanding notwithstanding") 1) /\
  ~ glossed_at_first_match rule p /\
  includes (toLowerCaseAscii p) (lit "notwithstanding (despite the above)")
  = false.
Proof.
  cbv zeta. split; [|split; [|split]]; [| | |vm_compute; reflexivity].
  - do 4 right. left. reflexivity.
  - left. vm_compute. reflexivity.
  - intro H. destruct H as (pre & m & post & S & G); [vm_compute; reflexivity|].
    vm_compute in S. injection S as <- <- <-.
    vm_compute in G. discriminate.
Qed.

(** ** The examples of the specification *)

(** C4, as stated, fails: the first sentence of the document contains
    [fee], so the payment branch finds a sentence and does not fall back
    to its fixed message. *)
Lemma C4_fee_counterexample :
  simpleChatAnswer toLowerCaseAscii (lit "what is the fee?")
    (lit "No fee is mentioned here. The weather is nice.") []
  <> no_payment_msg.
Proof. vm_compute. discriminate. Qed.

(** C4, amended: the answer to [what is the fee?] on that document is
    its first sentence, the only one that matches payment, fee or
    price. *)
Theorem C4_fee_answer (toLowerCase : jsstring -> jsstring) :
  toLowerCase (lit "what is the fee?") = lit "what is the fee?" ->
  simpleChatAnswer toLowerCase (lit "what is the fee?")
    (lit "No fee is mentioned here. The weather is nice.") []
  = lit "No fee is mentioned here.".
Proof.
  intro H. unfold simpleChatAnswer. rewrite H. vm_compute. reflexivity.
Qed.

Lemma C4_fee_answer_witness :
  simpleChatAnswer toLowerCaseAscii (lit "what is the fee?")
    (lit "No fee is mentioned here. The weather is nice.") []
  = lit "No fee is mentioned here.".
Proof. apply (C4_fee_answer toLowerCaseAscii). reflexivity. Defined.

(** C7: with one point asked for, the summary of the two-sentence text
    is the sentence with [indemnify], annotated. *)
Theorem C7_indemnify_example (toLowerCase : jsstring -> jsstring) :
  toLowerCase (lit "A shall indemnify B.") = lit "a shall indemnify b." ->
  toLowerCase (lit "This is short.") = lit "this is short." ->
  heuristicsSummary toLowerCase (lit "A shall indemnify B. This is short.") 1
  = [lit "A shall indemnify (compensation if someone sues you) B."].
Proof.
  intros H0 H1. rewrite heuristicsSummary_unfold.
  change (splitSentences (lit "A shall indemnify B. This is short."))
    with [lit "A shall indemnify B."; lit "This is short."].
  cbv zeta. unfold scoring, mapi. cbn [mapi_from].
  unfold sentence_score. rewrite H0, H1.
  vm_compute. reflexivity.
Qed.

Lemma C7_indemnify_example_witness :
  heuristicsSummary toLowerCaseAscii
    (lit "A shall indemnify B. This is short.") 1
  = [lit "A shall indemnify (compensation if someone sues you) B."].
Proof. apply (C7_indemnify_example toLowerCaseAscii); reflexivity. Defined.

(** A boundary needs a sentence end behind it and a start character
    ahead of it; line feeds count as white space between sentences. *)
Example splitSentences_example :
  splitSentences
    (lit "First one. second stays.  Third!" ++ [10] ++ lit "(Fourth)? 5th e.g. x ")
  = List.map lit
      [ "First one. second stays."; "Third!"; "(Fourth)?"; "5th e.g. x" ]%string.
Proof. vm_compute. reflexivity. Qed.

(** The alternation [on|onal] stops at [on], and the optional [ity] is
    taken when it is there. *)
Example annotate_example :
  annotate (lit "Jurisdictional and CONFIDENTIALITY duties.")
  = lit "Jurisdiction (which court's rules apply)al and CONFIDENTIALITY (kept private) duties.".
Proof. vm_compute. reflexivity. Qed.

Example terminate_example :
  simpleChatAnswer toLowerCaseAscii (lit "When can I terminate?")
    (lit "This agreement may be terminated by either party with 30 days notice.")
    []
  = lit "This agreement may be terminated by either party with 30 days notice.".
Proof. vm_compute. reflexivity. Qed.

(** ** Instances on concrete inputs *)

Lemma C1_summary_length_witness :
  Z.of_nat
    (length (heuristicsSummary toLowerCaseAscii
               (lit "A shall indemnify B. This is short.") 1)) =
  Z.min 1
    (Z.of_nat (length (splitSentences (lit "A shall indemnify B. This is short.")))).
Proof. apply C1_summary_length. lia. Defined.

Lemma C2_score_and_rank_witness :
  ranked_summary toLowerCaseAscii (lit "A shall indemnify B. This is short.") 1.
Proof. apply C2_score_and_rank. lia. Defined.

Lemma C10_terminate_ignores_summary_witness :
  simpleChatAnswer toLowerCaseAscii (lit "When can I terminate?")
    (lit "This agreement may be terminated by either party with 30 days notice.")
    [] =
  simpleChatAnswer toLowerCaseAscii (lit "When can I terminate?")
    (lit "This agreement may be terminated by either party with 30 days notice.")
    [lit "Some summary point."].
Proof. apply C10_terminate_ignores_summary. reflexivity. Defined.

(** * Further properties *)

(** ** The shape of the split *)

Lemma ws_not_end (c : cu) : is_ws c = true -> in_cls endCls c = false.
Proof.
  unfold is_ws. rewrite !orb_true_iff, andb_true_iff, !N.eqb_eq, !N.leb_le.
  intro H. cbn.
  repeat match goal with
         | |- context [?a <=? ?b] => destruct (N.leb_spec a b)
         end; cbn; auto; lia.
Qed.

Lemma end_not_ws (c : cu) : in_cls endCls c = true -> is_ws c = false.
Proof.
  intro H. destruct (is_ws c) eqn:W; auto.
  rewrite (ws_not_end c W) in H. discriminate.
Qed.

Lemma start_not_ws (c : cu) : in_cls startCls c = true -> is_ws c = false.
Proof.
  intro H. destruct (is_ws c) eqn:W; auto.
  rewrite (ws_not_start c W) in H. discriminate.
Qed.

(** What a boundary match tells: a sentence end behind, a non-empty run
    of white space of the matched length, and a sentence start after. *)
Lemma boundary_len_some prev (s : jsstring) (k : nat) :
  boundary_len prev s = Some k ->
  exists p w c rest,
    prev = Some p /\ in_cls endCls p = true /\
    s = w ++ c :: rest /\ blank w /\ w <> [] /\ length w = k /\
    in_cls startCls c = true.
Proof.
  unfold boundary_len.
  destruct prev as [p|]; [|discriminate].
  destruct (in_cls endCls p) eqn:P; [|discriminate].
  destruct s as [|ch s]; [discriminate|].
  destruct (is_ws ch) eqn:W; [|discriminate].
  destruct (dropWhile_split is_ws (ch :: s)) as (w & E & F).
  destruct (dropWhile is_ws (ch :: s)) as [|c rest] eqn:D; [discriminate|].
  destruct (in_cls startCls c) eqn:C; [|discriminate].
  intros [= <-]. exists p, w, c, rest.
  repeat split; auto.
  - intros ->. cbn [app] in E. injection E as -> ->.
    pose proof (dropWhile_head_ok is_ws (c :: rest)) as O.
    rewrite D in O. cbn in O. congruence.
  - apply (f_equal (@length cu)) in E. rewrite length_app in E.
    cbn [length] in *. lia.
Qed.

Lemma split_from_skip (i : bool) (r : regex) (w : jsstring) :
  forall prev rest,
    split_from i r (length w) prev [] (w ++ rest) =
    split_from i r O (prev_after prev w) [] rest.
Proof.
  induction w as [|c w IH]; intros prev rest; [reflexivity|].
  cbn [length app split_from]. rewrite IH. reflexivity.
Qed.

Lemma prev_after_blank (w : jsstring) :
  forall prev, blank w -> tracks prev [] -> tracks (prev_after prev w) [].
Proof.
  induction w as [|c w IH]; intros prev B T; [exact T|].
  inversion B as [|? ? Wc Bw]; subst. cbn. apply IH; auto.
  intros p [= <-]. now apply ws_not_end.
Qed.

Lemma last_app_one {A} (l : list A) (c d : A) : last (l ++ [c]) d = c.
Proof. apply last_last. Qed.

Lemma last_rev_cons {A} (l : list A) (c d : A) : last (rev (c :: l)) d = c.
Proof. cbn [rev]. apply last_last. Qed.

(** The pieces of the split of a text at sentence boundaries are cut as
    [cut] describes. *)
Lemma split_from_cut (n : nat) :
  forall s prev cur,
    (length s <= n)%nat -> tracks prev cur ->
    cut (rev cur ++ s) (split_from false boundaryRe O prev cur s).
Proof.
  induction n as [|n IH]; intros s prev cur L T.
  - destruct s; [|cbn in L; lia]. cbn. rewrite app_nil_r. constructor.
  - destruct s as [|ch s].
    + cbn. rewrite app_nil_r. constructor.
    + cbn [split_from]. rewrite exec_at_boundary.
      destruct (boundary_len prev (ch :: s)) as [k|] eqn:B.
      * destruct (boundary_len_some _ _ _ B)
          as (p & w & c & rest & -> & P & E & Bw & Nw & Lw & C).
        destruct w as [|x w]; [congruence|].
        cbn [app] in E. injection E as <- ->. cbn [length] in Lw. subst k.
        rewrite split_from_skip.
        destruct cur as [|c0 cur].
        { unfold tracks in T. specialize (T p eq_refl). congruence. }
        unfold tracks in T. injection T as <-.
        change (rev (p :: cur) ++ ch :: w ++ c :: rest)
          with (rev (p :: cur) ++ (ch :: w) ++ (c :: rest)).
        inversion Bw as [|? ? Wch Bw']; subst.
        apply cut_more.
        -- unfold ends_sentence. now rewrite last_rev_cons.
        -- discriminate.
        -- exact Bw.
        -- exact C.
        -- apply (IH (c :: rest) _ []).
           ++ cbn [length] in *. rewrite length_app in L. cbn [length] in L. lia.
           ++ apply prev_after_blank; auto.
              intros q [= <-]. now apply ws_not_end.
      * replace (rev cur ++ ch :: s) with (rev (ch :: cur) ++ s)
          by (cbn [rev]; now rewrite <- app_assoc).
        apply IH; [cbn [length] in L; lia | reflexivity].
Qed.

Lemma split_boundary_cut (s : jsstring) : cut s (split false boundaryRe s).
Proof.
  unfold split. destruct s as [|ch s].
  - rewrite exec_at_boundary. cbn. constructor.
  - apply (split_from_cut (length (ch :: s)) (ch :: s) None []); auto.
    intros p H. discriminate.
Qed.

Lemma dropWhile_keeps_last {A} (p : A -> bool) (l : list A) (c : A) :
  p c = false -> exists l', dropWhile p (l ++ [c]) = l' ++ [c].
Proof.
  intro H. induction l as [|x l (l' & IH)]; cbn.
  - rewrite H. now exists [].
  - destruct (p x); [now exists l'|]. now exists (x :: l).
Qed.

Lemma last_nonempty {A} (l : list A) (d : A) :
  l <> [] -> exists t, l = t ++ [last l d].
Proof.
  intro H. destruct (exists_last H) as (t & c & ->).
  exists t. now rewrite last_last.
Qed.

Lemma ends_sentence_split (s : jsstring) :
  ends_sentence s = true ->
  exists t c, s = t ++ [c] /\ in_cls endCls c = true.
Proof.
  unfold ends_sentence. intro H. destruct s as [|x s]; [discriminate|].
  destruct (last_nonempty (x :: s) 0) as (t & E); [discriminate|].
  exists t, (last (x :: s) 0). auto.
Qed.

Lemma starts_sentence_split (s : jsstring) :
  starts_sentence s = true ->
  exists c t, s = c :: t /\ in_cls startCls c = true.
Proof.
  unfold starts_sentence. destruct s as [|c t]; [discriminate|].
  intro H. now exists c, t.
Qed.

(** [trim] keeps a last code unit that is not white space. *)
Lemma trim_keeps_last (t : jsstring) (c : cu) :
  is_ws c = false -> exists t', trim (t ++ [c]) = t' ++ [c].
Proof.
  intro H. unfold trim.
  destruct (dropWhile_keeps_last is_ws t c H) as (l' & ->).
  rewrite rev_app_distr. cbn [rev app dropWhile]. rewrite H.
  exists l'. cbn [rev]. now rewrite rev_involutive.
Qed.

(** [trim] keeps a first code unit that is not white space. *)
Lemma trim_keeps_first (c : cu) (t : jsstring) :
  is_ws c = false -> exists t', trim (c :: t) = c :: t'.
Proof.
  intro H. unfold trim. cbn [dropWhile]. rewrite H. cbn [rev].
  destruct (dropWhile_keeps_last is_ws (rev t) c H) as (l' & ->).
  rewrite rev_app_distr. cbn. now exists (rev l').
Qed.

Lemma trim_ends (p : jsstring) :
  ends_sentence p = true -> ends_sentence (trim p) = true.
Proof.
  intro H. destruct (ends_sentence_split p H) as (t & c & -> & C).
  destruct (trim_keeps_last t c (end_not_ws c C)) as (t' & ->).
  unfold ends_sentence. now rewrite last_last.
Qed.

Lemma trim_starts (p : jsstring) :
  starts_sentence p = true -> starts_sentence (trim p) = true.
Proof.
  intro H. destruct (starts_sentence_split p H) as (c & t & -> & C).
  destruct (trim_keeps_first c t (start_not_ws c C)) as (t' & ->).
  exact C.
Qed.

Lemma ends_sentence_truthy (p : jsstring) :
  ends_sentence p = true -> truthy p = true.
Proof. destruct p; [discriminate|reflexivity]. Qed.

Lemma starts_sentence_truthy (p : jsstring) :
  starts_sentence p = true -> truthy p = true.
Proof. destruct p; [discriminate|reflexivity]. Qed.

(** A string is its trimmed form between two runs of white space. *)
Lemma trim_split (s : jsstring) :
  exists lead trail, s = lead ++ trim s ++ trail /\ blank lead /\ blank trail.
Proof.
  unfold trim.
  destruct (dropWhile_split is_ws s) as (lead & E & F).
  destruct (dropWhile_split is_ws (rev (dropWhile is_ws s))) as (tr & E' & F').
  set (d := dropWhile is_ws s) in *.
  set (e := dropWhile is_ws (rev d)) in *.
  exists lead, (rev tr). split; [|split]; auto.
  - rewrite <- rev_app_distr, <- E', rev_involutive. exact E.
  - unfold blank. now apply Forall_rev.
Qed.

(** The sentences of a text as trimmed, non-empty pieces of its cut. *)
Lemma splitSentences_pieces (text : jsstring) :
  exists ps,
    cut (unwrap_lines text) ps /\
    splitSentences text = filter truthy (map trim ps).
Proof.
  exists (split false boundaryRe (unwrap_lines text)). split.
  - apply split_boundary_cut.
  - unfold splitSentences, unwrap_lines. now rewrite replace_newlines.
Qed.

Lemma cut_sentences_end (s : jsstring) (ps : list jsstring) :
  cut s ps ->
  Forall (fun x => ends_sentence x = true)
    (removelast (filter truthy (map trim ps))).
Proof.
  induction 1 as [p|p w rest ps E _ _ _ _ IH].
  - cbn. destruct (truthy (trim p)); constructor.
  - cbn [map filter]. apply trim_ends in E.
    rewrite (ends_sentence_truthy _ E).
    destruct (filter truthy (map trim ps)) as [|y l] eqn:F; [constructor|].
    cbn [removelast]. constructor; [exact E|exact IH].
Qed.

Lemma cut_sentences_all_start (s : jsstring) (ps : list jsstring) :
  cut s ps -> starts_sentence s = true ->
  Forall (fun x => starts_sentence x = true) (filter truthy (map trim ps)).
Proof.
  induction 1 as [p|p w rest ps E _ _ R _ IH]; intro S.
  - cbn. destruct (truthy (trim p)); constructor.
    + now apply trim_starts.
    + constructor.
  - cbn [map filter].
    assert (starts_sentence p = true) as Sp.
    { destruct (ends_sentence_split p E) as (t & c & -> & _).
      destruct t; exact S. }
    apply trim_starts in Sp. rewrite (starts_sentence_truthy _ Sp).
    constructor; auto.
Qed.

Lemma cut_sentences_start (s : jsstring) (ps : list jsstring) :
  cut s ps ->
  Forall (fun x => starts_sentence x = true)
    (tl (filter truthy (map trim ps))).
Proof.
  destruct 1 as [p|p w rest ps E _ _ R C].
  - cbn. destruct (truthy (trim p)); constructor.
  - cbn [map filter]. apply trim_ends in E.
    rewrite (ends_sentence_truthy _ E). cbn [tl].
    now apply (cut_sentences_all_start rest).
Qed.

Lemma weave_head (a g : jsstring) (gs sents : list jsstring) :
  weave ((a ++ g) :: gs) sents = a ++ weave (g :: gs) sents.
Proof. destruct sents; cbn; now rewrite <- ?app_assoc. Qed.

Lemma blank_app (a b : jsstring) : blank a -> blank b -> blank (a ++ b).
Proof. unfold blank. intros. apply Forall_app. auto. Qed.

Lemma cut_weave (s : jsstring) (ps : list jsstring) :
  cut s ps ->
  exists gaps,
    length gaps = S (length (filter truthy (map trim ps))) /\
    Forall blank gaps /\
    weave gaps (filter truthy (map trim ps)) = s.
Proof.
  induction 1 as [p|p w rest ps _ _ Bw _ _ (gaps & L & B & W)].
  - destruct (trim_split p) as (lead & trail & E & Bl & Bt).
    cbn [map filter]. destruct (trim p) as [|x t] eqn:T.
    + exists [p]. cbn. repeat split; auto.
      constructor; [|constructor]. rewrite E. now apply blank_app.
    + exists [lead; trail]. cbn [truthy weave length]. repeat split; auto.
  - destruct gaps as [|g gs]; [discriminate|].
    apply Forall_cons_iff in B as (Bg & Bgs).
    destruct (trim_split p) as (lead & trail & E & Bl & Bt).
    cbn [map filter]. destruct (trim p) as [|x t] eqn:T.
    + exists ((p ++ w ++ g) :: gs). cbn [truthy]. repeat split; auto.
      * constructor; auto. rewrite E. cbn [app].
        repeat apply blank_app; auto.
      * rewrite app_assoc, weave_head, W. now rewrite <- app_assoc.
    + exists (lead :: (trail ++ w ++ g) :: gs).
      cbn [truthy length weave]. repeat split; auto.
      * constructor; auto. constructor; auto.
        repeat apply blank_app; auto.
      * rewrite <- W, E.
        destruct (filter truthy (map trim ps)); cbn [weave];
          rewrite <- ?app_assoc; reflexivity.
Qed.

Lemma count_ends_app (a b : jsstring) :
  count_ends (a ++ b) = (count_ends a + count_ends b)%nat.
Proof. unfold count_ends. now rewrite filter_app, length_app. Qed.

Lemma cut_count (s : jsstring) (ps : list jsstring) :
  cut s ps -> (length ps <= S (count_ends s))%nat.
Proof.
  induction 1 as [p|p w rest ps E _ _ _ _ IH]; cbn [length]; [lia|].
  destruct (ends_sentence_split p E) as (t & c & -> & C).
  rewrite !count_ends_app. unfold count_ends at 2. cbn [filter].
  rewrite C. cbn [length]. lia.
Qed.

Lemma count_ends_unwrap (text : jsstring) :
  count_ends (unwrap_lines text) = count_ends text.
Proof.
  unfold count_ends, unwrap_lines.
  induction text as [|c t IH]; [reflexivity|]. cbn [map filter].
  destruct (N.eqb_spec c 10) as [->|_].
  - cbn. exact IH.
  - destruct (in_cls endCls c); cbn [length]; now rewrite IH.
Qed.

Lemma filter_nil_existsb {A} (p : A -> bool) (l : list A) :
  filter p l = [] <-> existsb p l = false.
Proof.
  induction l as [|x l IH]; cbn; [tauto|].
  destruct (p x); cbn; [split; discriminate|exact IH].
Qed.

Lemma splitSentences_nil_iff (text : jsstring) :
  splitSentences text = [] <-> existsb non_ws text = false.
Proof.
  rewrite <- filter_nil_existsb, <- splitSentences_non_ws. split.
  - intros ->. reflexivity.
  - intro H. destruct (splitSentences text) as [|s l] eqn:E; [reflexivity|].
    exfalso.
    assert (In s (splitSentences text)) as I by (rewrite E; now left).
    destruct (splitSentences_ends _ _ I) as (Hd & _).
    pose proof (C := I). unfold splitSentences in C.
    apply filter_In in C as (_ & T).
    destruct s as [|c t]; [discriminate|].
    cbn in Hd. cbn [concat app filter] in H.
    unfold non_ws at 1 in H. rewrite Hd in H. discriminate.
Qed.

(** X1: a text has no sentence exactly when it holds nothing but white
    space. *)
Theorem X1_no_sentence_iff_blank (text : jsstring) :
  splitSentences text = [] <-> existsb non_ws text = false.
Proof. apply splitSentences_nil_iff. Qed.

(** X2: a text without any of [. ! ?] that is not blank is one sentence:
    the whole text, line feeds as spaces, trimmed. *)
Theorem X2_no_end_mark_one_sentence (text : jsstring) :
  existsb (in_cls endCls) text = false ->
  existsb non_ws text = true ->
  splitSentences text = [trim (unwrap_lines text)].
Proof.
  intros E N.
  destruct (splitSentences_pieces text) as (ps & C & S).
  assert (count_ends (unwrap_lines text) = O) as Z.
  { rewrite count_ends_unwrap. unfold count_ends.
    apply filter_nil_existsb in E. now rewrite E. }
  assert (ps = [unwrap_lines text]) as ->.
  { destruct C as [p|p w rest ps Ep _ _ _ _]; [reflexivity|].
    destruct (ends_sentence_split p Ep) as (t & c & -> & Cc).
    rewrite !count_ends_app in Z. unfold count_ends at 2 in Z.
    cbn [filter] in Z. rewrite Cc in Z. cbn [length] in Z. lia. }
  rewrite S. cbn [map filter].
  destruct (truthy (trim (unwrap_lines text))) eqn:T; [reflexivity|].
  exfalso.
  assert (splitSentences text = []) as K.
  { rewrite S. cbn [map filter]. now rewrite T. }
  apply splitSentences_nil_iff in K. congruence.
Qed.

(** X2 at a text of two lines without an end mark. *)
Lemma X2_no_end_mark_one_sentence_witness :
  splitSentences (lit " first line" ++ [10] ++ lit "second line ") =
  [trim (unwrap_lines (lit " first line" ++ [10] ++ lit "second line "))].
Proof. apply X2_no_end_mark_one_sentence; reflexivity. Defined.

(** X3: every sentence but the last ends with one of [. ! ?]. *)
Theorem X3_sentences_end_marked (text : jsstring) :
  Forall (fun s => ends_sentence s = true) (removelast (splitSentences text)).
Proof.
  destruct (splitSentences_pieces text) as (ps & C & ->).
  now apply (cut_sentences_end (unwrap_lines text)).
Qed.

(** X4: every sentence but the first starts with an upper-case letter, a
    digit, a quote or a parenthesis. *)
Theorem X4_sentences_start_marked (text : jsstring) :
  Forall (fun s => starts_sentence s = true) (tl (splitSentences text)).
Proof.
  destruct (splitSentences_pieces text) as (ps & C & ->).
  now apply (cut_sentences_start (unwrap_lines text)).
Qed.

(** X5: the text, line feeds as spaces, is its sentences in order with
    runs of white space before, between and after them: nothing but
    white space is lost, and no sentence is moved or repeated. *)
Theorem X5_text_is_woven_sentences (text : jsstring) :
  exists gaps,
    length gaps = S (length (splitSentences text)) /\
    Forall blank gaps /\
    weave gaps (splitSentences text) = unwrap_lines text.
Proof.
  destruct (splitSentences_pieces text) as (ps & C & ->).
  now apply cut_weave.
Qed.

(** X6: a text has at most one sentence more than it has end marks
    [. ! ?]. *)
Theorem X6_sentence_count_bound (text : jsstring) :
  (length (splitSentences text) <= S (count_ends text))%nat.
Proof.
  destruct (splitSentences_pieces text) as (ps & C & ->).
  apply cut_count in C. rewrite count_ends_unwrap in C.
  pose proof (filter_length_le truthy (map trim ps)) as F.
  rewrite length_map in F. lia.
Qed.

(** ** No two sentences tie *)

Lemma nat_Q_lt (i j : nat) : (i < j)%nat -> (nat_Q i < nat_Q j)%Q.
Proof. intro H. unfold nat_Q. rewrite <- Zlt_Qlt. lia. Qed.

Lemma nat_Q_nonneg (i : nat) : (0 <= nat_Q i)%Q.
Proof. unfold nat_Q. change 0%Q with (inject_Z 0). rewrite <- Zle_Qle. lia. Qed.

(** The share [i / max(1, N)] of the index lies in [0, 1) and grows with
    the index. *)
Lemma share_bounds (N i : nat) :
  (i < N)%nat ->
  (0 <= nat_Q i / Qmax 1 (nat_Q N) /\ nat_Q i / Qmax 1 (nat_Q N) < 1)%Q.
Proof.
  intro H. pose proof (Q.le_max_l 1 (nat_Q N)) as D1.
  pose proof (Q.le_max_r 1 (nat_Q N)) as DN.
  pose proof (nat_Q_lt _ _ H) as L. pose proof (nat_Q_nonneg i) as P.
  assert (0 < Qmax 1 (nat_Q N))%Q as D by lra.
  split.
  - apply Qle_shift_div_l; [exact D|]. lra.
  - apply Qlt_shift_div_r; [exact D|]. lra.
Qed.

Lemma share_lt (N i j : nat) :
  (i < j)%nat ->
  (nat_Q i / Qmax 1 (nat_Q N) < nat_Q j / Qmax 1 (nat_Q N))%Q.
Proof.
  intro H. pose proof (Q.le_max_l 1 (nat_Q N)) as D1.
  assert (0 < Qmax 1 (nat_Q N))%Q as D by lra.
  unfold Qdiv. apply Qmult_lt_compat_r.
  - now apply Qinv_lt_0_compat.
  - now apply nat_Q_lt.
Qed.

Lemma bonus_eq (N i : nat) :
  (i < N)%nat -> (bonus N i == 1 - nat_Q i / Qmax 1 (nat_Q N))%Q.
Proof.
  intro H. destruct (share_bounds N i H) as (_ & L).
  unfold bonus. apply Q.max_r. lra.
Qed.

Lemma spec_score_parts (toLowerCase : jsstring -> jsstring)
    (N i : nat) (s : jsstring) :
  (spec_score toLowerCase N i s ==
   inject_Z (base_score toLowerCase s) + bonus N i)%Q.
Proof.
  unfold spec_score, base_score. fold (bonus N i).
  rewrite !inject_Z_plus, inject_Z_mult. unfold nat_Q.
  destruct (120 <? length s)%nat, (250 <? length s)%nat; reflexivity.
Qed.

(** Sentences at different indices never score the same. *)
Lemma spec_score_apart (toLowerCase : jsstring -> jsstring)
    (N i j : nat) (s s' : jsstring) :
  (i < N)%nat -> (j < N)%nat -> i <> j ->
  ~ (spec_score toLowerCase N i s == spec_score toLowerCase N j s')%Q.
Proof.
  intros Hi Hj Ne E. rewrite !spec_score_parts in E.
  rewrite (bonus_eq N i Hi), (bonus_eq N j Hj) in E.
  destruct (share_bounds N i Hi) as (Pi & Li).
  destruct (share_bounds N j Hj) as (Pj & Lj).
  set (m := base_score toLowerCase s) in *.
  set (m' := base_score toLowerCase s') in *.
  destruct (Z.lt_trichotomy m m') as [L|[L|L]].
  - assert (inject_Z m + 1 <= inject_Z m')%Q as K.
    { change 1%Q with (inject_Z 1). rewrite <- inject_Z_plus, <- Zle_Qle. lia. }
    lra.
  - rewrite L in E.
    destruct (Nat.lt_gt_cases i j) as [C _]. destruct (C Ne) as [G|G];
      pose proof (share_lt N _ _ G); lra.
  - assert (inject_Z m' + 1 <= inject_Z m)%Q as K.
    { change 1%Q with (inject_Z 1). rewrite <- inject_Z_plus, <- Zle_Qle. lia. }
    lra.
Qed.

Lemma falling_apart_outranks (toLowerCase : jsstring -> jsstring)
    (sents : list jsstring) (l : list scored) :
  StronglySorted falling l ->
  NoDup (map idx l) ->
  Forall (scored_as_specified toLowerCase sents) l ->
  StronglySorted outranks l.
Proof.
  induction 1 as [|a l S IH F]; intros N A; [constructor|].
  cbn [map] in N. apply NoDup_cons_iff in N as (Na & Nl).
  apply Forall_cons_iff in A as ((Ia & Sa) & Al).
  constructor; [now apply IH|].
  rewrite Forall_forall in *. intros b Hb.
  specialize (F b Hb). destruct (Al b Hb) as (Ib & Sb).
  unfold falling in F. unfold outranks.
  apply Qle_lt_or_eq in F as [F|F]; [exact F|]. exfalso.
  apply (spec_score_apart toLowerCase (length sents) (idx b) (idx a)
           (sent b) (sent a)).
  - apply nth_error_Some. congruence.
  - apply nth_error_Some. congruence.
  - intro E. apply Na. rewrite <- E. now apply in_map.
  - now rewrite <- Sa, <- Sb.
Qed.

Lemma ranking_idx (toLowerCase : jsstring -> jsstring) (text : jsstring) :
  Permutation (map idx (ranking toLowerCase text))
    (seq 0 (length (splitSentences text))).
Proof.
  unfold ranking. rewrite (Permutation_map idx (sort_perm _ _)).
  unfold scoring, mapi. now rewrite mapi_from_idx.
Qed.

Lemma ranking_as_specified (toLowerCase : jsstring -> jsstring)
    (text : jsstring) :
  Forall (scored_as_specified toLowerCase (splitSentences text))
    (ranking toLowerCase text).
Proof.
  apply Permutation_Forall with (scoring toLowerCase (splitSentences text)).
  - symmetry. apply sort_perm.
  - apply scoring_as_specified.
Qed.

(** X7: in the sorted array every entry scores strictly more than every
    later one: no two sentences of a text tie, whatever their words, so
    the summary, made of the first entries, does not depend on how the
    sort treats equal scores. *)
Theorem X7_ranking_strict (toLowerCase : jsstring -> jsstring)
    (text : jsstring) (maxPoints : Z) :
  StronglySorted outranks (ranking toLowerCase text) /\
  heuristicsSummary toLowerCase text maxPoints =
  map (fun x => annotate (sent x))
    (slice0 (Z.min maxPoints (Z.of_nat (length (ranking toLowerCase text))))
       (ranking toLowerCase text)).
Proof.
  split; [|apply heuristicsSummary_unfold].
  apply (falling_apart_outranks toLowerCase (splitSentences text)).
  - apply sort_falling.
  - apply (Permutation_NoDup (l := seq 0 (length (splitSentences text)))).
    + symmetry. apply ranking_idx.
    + apply seq_NoDup.
  - apply ranking_as_specified.
Qed.

Lemma scoring_sent (toLowerCase : jsstring -> jsstring) (sents : list jsstring) :
  map sent (scoring toLowerCase sents) = sents.
Proof.
  unfold scoring, mapi. generalize O as i. generalize sents at 1 as all.
  induction sents as [|s l IH]; intros all i; cbn; [reflexivity|].
  now rewrite IH.
Qed.

(** X8: when [maxPoints] is at least the number of sentences, the
    summary holds every sentence of the text, annotated, exactly once
    (in ranked order). *)
Theorem X8_summary_of_all (toLowerCase : jsstring -> jsstring)
    (text : jsstring) (maxPoints : Z) :
  (Z.of_nat (length (splitSentences text)) <= maxPoints)%Z ->
  Permutation (heuristicsSummary toLowerCase text maxPoints)
    (map annotate (splitSentences text)).
Proof.
  intro H. rewrite heuristicsSummary_unfold. cbv zeta.
  set (ranked := sort by_score (scoring toLowerCase (splitSentences text))).
  assert (length ranked = length (splitSentences text)) as L.
  { unfold ranked. now rewrite sort_length, scoring_length. }
  rewrite slice0_firstn by lia.
  rewrite firstn_all2 by lia.
  rewrite <- (scoring_sent toLowerCase (splitSentences text)) at 1.
  rewrite map_map. apply Permutation_map. apply sort_perm.
Qed.

Lemma X8_summary_of_all_witness :
  Permutation
    (heuristicsSummary toLowerCaseAscii
       (lit "This is short. A shall indemnify B.") 5)
    (map annotate (splitSentences (lit "This is short. A shall indemnify B."))).
Proof. apply X8_summary_of_all. vm_compute. discriminate. Defined.

(** ** Annotation only inserts *)

Lemma embeds_refl (s : jsstring) : embeds s s.
Proof. induction s; constructor; auto. Qed.

Lemma embeds_app_skip (x s l : jsstring) : embeds s l -> embeds s (x ++ l).
Proof. intro H. induction x; cbn; [exact H|now constructor]. Qed.

Lemma embeds_app (a a' b b' : jsstring) :
  embeds a a' -> embeds b b' -> embeds (a ++ b) (a' ++ b').
Proof.
  intros H K. induction H; cbn.
  - now apply embeds_app_skip.
  - now constructor.
  - now constructor.
Qed.

Lemma embeds_trans (a b c : jsstring) : embeds a b -> embeds b c -> embeds a c.
Proof.
  intros H K. revert a H.
  induction K as [l|x b c K IH|x b c K IH]; intros a H.
  - inversion H; subst. constructor.
  - inversion H; subst.
    + constructor.
    + constructor. now apply IH.
    + apply embeds_skip. now apply IH.
  - apply embeds_skip. now apply IH.
Qed.

(** What a rule does, by whether its pattern occurs. *)
Lemma apply_rule_cases (rule : regex * jsstring) (s : jsstring) :
  (test true (fst rule) s = false /\ apply_rule rule s = s) \/
  (test true (fst rule) s = true /\
   exists pre m post,
     s = pre ++ m ++ post /\
     apply_rule rule s = pre ++ gloss (snd rule) m ++ post).
Proof.
  unfold apply_rule, replace, test.
  destruct (search true (fst rule) s) as [[[pre m] post]|] eqn:E.
  - right. split; [reflexivity|]. exists pre, m, post. split; [|reflexivity].
    exact (proj1 (search_some _ _ _ _ _ _ E)).
  - left. split; reflexivity.
Qed.

Lemma apply_rule_embeds (rule : regex * jsstring) (s : jsstring) :
  embeds s (apply_rule rule s).
Proof.
  destruct (apply_rule_cases rule s) as [(_ & ->)|(_ & pre & m & post & E & ->)].
  - apply embeds_refl.
  - rewrite E at 1. apply embeds_app; [apply embeds_refl|].
    apply embeds_app; [|apply embeds_refl].
    unfold gloss. rewrite <- (app_nil_r m) at 1.
    apply embeds_app; [apply embeds_refl|constructor].
Qed.

Lemma apply_rule_length (rule : regex * jsstring) (s : jsstring) :
  (length s <= length (apply_rule rule s))%nat /\
  (test true (fst rule) s = true ->
   (length s < length (apply_rule rule s))%nat).
Proof.
  destruct (apply_rule_cases rule s)
    as [(T & ->)|(T & pre & m & post & E & ->)].
  - split; [lia|]. congruence.
  - rewrite E at 1 3. unfold gloss. rewrite !length_app. cbn [lit length].
    cbn. split; intros; lia.
Qed.

Lemma apply_rules_embeds (rules : list (regex * jsstring)) :
  forall s, embeds s (apply_rules rules s).
Proof.
  induction rules as [|rule rules IH]; intro s; cbn.
  - apply embeds_refl.
  - eapply embeds_trans; [apply apply_rule_embeds|apply IH].
Qed.

Lemma apply_rules_length (rules : list (regex * jsstring)) :
  forall s, (length s <= length (apply_rules rules s))%nat.
Proof.
  induction rules as [|rule rules IH]; intro s; cbn; [lia|].
  pose proof (proj1 (apply_rule_length rule s)).
  specialize (IH (apply_rule rule s)). unfold apply_rules in IH. lia.
Qed.

Lemma apply_rules_fixed_iff (rules : list (regex * jsstring)) (s : jsstring) :
  apply_rules rules s = s <->
  Forall (fun rule => test true (fst rule) s = false) rules.
Proof.
  induction rules as [|rule rules IH]; cbn.
  - split; auto.
  - fold (apply_rules rules (apply_rule rule s)).
    destruct (apply_rule_length rule s) as (L & G).
    destruct (test true (fst rule) s) eqn:T.
    + split.
      * intro E. specialize (G eq_refl).
        pose proof (apply_rules_length rules (apply_rule rule s)) as M.
        rewrite E in M. lia.
      * intro F. apply Forall_cons_iff in F as (F & _). congruence.
    + destruct (apply_rule_cases rule s) as [(_ & ->)|(T' & _)]; [|congruence].
      rewrite IH. split.
      * intro F. now constructor.
      * intro F. now apply Forall_cons_iff in F as (_ & F).
Qed.

(** X9: [annotate] returns a sentence unchanged exactly when none of
    the eight glossary patterns occurs in it. *)
Theorem X9_annotate_fixed_iff (s : jsstring) :
  annotate s = s <->
  Forall (fun rule => test true (fst rule) s = false) LEGAL_MAP.
Proof. apply (apply_rules_fixed_iff LEGAL_MAP s). Qed.

(** X10: every point of a summary is a sentence of the text with text
    inserted and nothing removed or reordered: the sentence can be read
    off the point by leaving code units out. *)
Theorem X10_points_embed_sentences (toLowerCase : jsstring -> jsstring)
    (text : jsstring) (maxPoints : Z) :
  Forall (fun p => exists s, In s (splitSentences text) /\ embeds s p)
    (heuristicsSummary toLowerCase text maxPoints).
Proof.
  eapply Forall_impl; [|apply summary_annotated].
  intros p (s & I & ->). exists s. split; [exact I|].
  apply (apply_rules_embeds LEGAL_MAP s).
Qed.

(** ** The sentence filters of the answers *)

(** X11: a pattern with the [i] flag finds a match in a string exactly
    when it finds one in the string with its ASCII letters lower-cased;
    so the chat filters and the glossary rules do not depend on the case
    of ASCII letters in the document. *)
Theorem X11_test_ignores_ascii_case (r : regex) (s : jsstring) :
  test true r (toLowerCaseAscii s) = test true r s.
Proof.
  unfold test, search.
  change (search_from true r None [] (toLowerCaseAscii s))
    with (search_from true r (option_map lower_cu None) (toLowerCaseAscii [])
            (toLowerCaseAscii s)).
  rewrite (search_from_lower r s None []).
  now destruct (search_from true r None [] s).
Qed.

Lemma star_cls_falls_back (p : cu -> bool) prev (s : jsstring) (k : cont) :
  k prev s <> None -> star_cls p prev s k <> None.
Proof.
  intro H. destruct s as [|c s]; cbn; [exact H|].
  destruct (p c); [|exact H].
  destruct (star_cls p (Some c) s k); [discriminate|exact H].
Qed.

Lemma star_cls_extends (p : cu -> bool) (t : jsstring) (k k' : cont)
    (s : jsstring) :
  extends_by t k k' ->
  forall prev,
    star_cls p prev s k <> None -> star_cls p prev (s ++ t) k' <> None.
Proof.
  intros X. induction s as [|c s IH]; intros prev H.
  - cbn in H. apply star_cls_falls_back. now apply (X prev []).
  - cbn [app star_cls] in *. destruct (p c).
    + destruct (star_cls p (Some c) s k) eqn:E.
      * assert (star_cls p (Some c) (s ++ t) k' <> None) as K
            by (apply IH; congruence).
        destruct (star_cls p (Some c) (s ++ t) k'); [discriminate|congruence].
      * destruct (star_cls p (Some c) (s ++ t) k'); [discriminate|].
        now apply (X prev (c :: s)).
    + now apply (X prev (c :: s)).
Qed.

(** A match is not lost when more input follows. *)
Lemma rmatch_extends (i : bool) (t : jsstring) (r : regex) :
  forall prev s k k',
    extends_by t k k' ->
    rmatch i r prev s k <> None -> rmatch i r prev (s ++ t) k' <> None.
Proof.
  induction r as [ |c|c|r1 IH1 r2 IH2|r1 IH1 r2 IH2|r1 IH1|c|c|c];
    intros prev s k k' X H; cbn [rmatch] in *.
  - now apply X.
  - destruct s as [|ch s]; [congruence|]. cbn [app].
    destruct (chr_match i c ch); [|congruence]. now apply X.
  - destruct s as [|ch s]; [congruence|]. cbn [app].
    destruct (cls_match i c ch); [|congruence]. now apply X.
  - apply (IH1 prev s (fun p' s' => rmatch i r2 p' s' k)); [|exact H].
    intros p s' K. now apply (IH2 p s' k).
  - destruct (rmatch i r1 prev s k) eqn:E.
    + assert (rmatch i r1 prev (s ++ t) k' <> None) as K
          by (apply (IH1 prev s k); [exact X|congruence]).
      destruct (rmatch i r1 prev (s ++ t) k'); [discriminate|congruence].
    + destruct (rmatch i r1 prev (s ++ t) k'); [discriminate|].
      now apply (IH2 prev s k).
  - destruct (rmatch i r1 prev s k) eqn:E.
    + assert (rmatch i r1 prev (s ++ t) k' <> None) as K
          by (apply (IH1 prev s k); [exact X|congruence]).
      destruct (rmatch i r1 prev (s ++ t) k'); [discriminate|congruence].
    + destruct (rmatch i r1 prev (s ++ t) k'); [discriminate|].
      now apply X.
  - destruct s as [|ch s]; [congruence|]. cbn [app].
    destruct (cls_match i c ch); [|congruence].
    now apply (star_cls_extends _ t k k').
  - destruct prev as [ch|]; [|congruence].
    destruct (cls_match i c ch); [|congruence]. now apply X.
  - destruct s as [|ch s]; [congruence|]. cbn [app].
    destruct (cls_match i c ch); [|congruence]. now apply (X prev (ch :: s)).
Qed.

Lemma exec_at_extends (i : bool) (r : regex) prev (s t : jsstring) :
  exec_at i r prev s <> None -> exec_at i r prev (s ++ t) <> None.
Proof.
  unfold exec_at. intro H.
  assert (rmatch i r prev (s ++ t) (fun _ rest => Some rest) <> None) as K.
  { apply (rmatch_extends i t r prev s (fun _ rest => Some rest)).
    - intros p s' _. discriminate.
    - destruct (rmatch i r prev s _); congruence. }
  destruct (rmatch i r prev (s ++ t) _); congruence.
Qed.

(** A string in which a pattern occurs still has it when text is put
    after it. *)
Lemma test_extends (i : bool) (r : regex) (s t : jsstring) :
  test i r s = true -> test i r (s ++ t) = true.
Proof.
  unfold test. intro H.
  destruct (search i r s) as [[[pre m] post]|] eqn:E; [|discriminate].
  destruct (search_some _ _ _ _ _ _ E) as (-> & M & _).
  destruct (search i r ((pre ++ m ++ post) ++ t)) eqn:N; [reflexivity|].
  exfalso.
  apply (exec_at_extends i r (before pre) (m ++ post) t); [congruence|].
  apply (search_none _ _ _ N pre). now rewrite <- !app_assoc.
Qed.

Lemma splitSentences_truthy (text s : jsstring) :
  In s (splitSentences text) -> truthy s = true.
Proof.
  unfold splitSentences. intro H. now apply filter_In in H as (_ & T).
Qed.

Lemma join_cons (sep x : jsstring) (l : list jsstring) :
  exists rest, join sep (x :: l) = x ++ rest.
Proof.
  destruct l as [|y l]; cbn [join].
  - exists []. now rewrite app_nil_r.
  - now exists (sep ++ join sep (y :: l)).
Qed.

Lemma truthy_app (a b : jsstring) : truthy a = true -> truthy (a ++ b) = true.
Proof. destruct a; [discriminate|reflexivity]. Qed.

(** X12: for a question that mentions [terminate], the answer is the
    fixed message exactly when no sentence of the document matches
    [/terminate/i]; otherwise it is the first three matching sentences
    (or fewer), joined by spaces, and so itself matches the pattern. *)
Theorem X12_termination_answer (toLowerCase : jsstring -> jsstring)
    (question original : jsstring) (summary : list jsstring) :
  includes (toLowerCase question) (lit "terminate") = true ->
  let hits := filter (test true terminateRe) (splitSentences original) in
  let a := simpleChatAnswer toLowerCase question original summary in
  (hits = [] /\ a = no_termination_msg) \/
  (hits <> [] /\ a = join (lit " ") (firstn 3 hits) /\
   test true terminateRe a = true /\ a <> no_termination_msg).
Proof.
  intro H. cbv zeta. rewrite (terminate_branch toLowerCase _ _ _ H).
  rewrite slice0_firstn by lia. change (Z.to_nat 3) with 3%nat.
  fold terminateRe.
  destruct (filter (test true terminateRe) (splitSentences original))
    as [|h l] eqn:F.
  - left. split; reflexivity.
  - right. split; [discriminate|].
    assert (In h (filter (test true terminateRe) (splitSentences original)))
      as I by (rewrite F; now left).
    apply filter_In in I as (I & T). apply splitSentences_truthy in I.
    change (firstn 3 (h :: l)) with (h :: firstn 2 l).
    destruct (join_cons (lit " ") h (firstn 2 l)) as (rest & ->).
    unfold or_else. rewrite (truthy_app h rest I).
    pose proof (test_extends true terminateRe h rest T) as K.
    repeat split; auto.
    intro E. rewrite E in K. vm_compute in K. discriminate.
Qed.

Lemma X12_termination_answer_witness :
  let hits :=
    filter (test true terminateRe)
      (splitSentences (lit "Either party may Terminate. Fees are due.")) in
  let a :=
    simpleChatAnswer toLowerCaseAscii (lit "Can I TERMINATE?")
      (lit "Either party may Terminate. Fees are due.") [] in
  (hits = [] /\ a = no_termination_msg) \/
  (hits <> [] /\ a = join (lit " ") (firstn 3 hits) /\
   test true terminateRe a = true /\ a <> no_termination_msg).
Proof.
  apply (X12_termination_answer toLowerCaseAscii (lit "Can I TERMINATE?")).
  reflexivity.
Defined.

(** X13: for a question that mentions [payment] or [fee] and not
    [terminate], the answer is the fixed message when no sentence of the
    document matches [/(payment|fee|price)/i] and otherwise the first
    three matching sentences (or fewer) joined by spaces; either way the
    answer itself matches the pattern. *)
Theorem X13_payment_answer (toLowerCase : jsstring -> jsstring)
    (question original : jsstring) (summary : list jsstring) :
  includes (toLowerCase question) (lit "terminate") = false ->
  includes (toLowerCase question) (lit "payment")
  || includes (toLowerCase question) (lit "fee") = true ->
  let hits := filter (test true paymentRe) (splitSentences original) in
  let a := simpleChatAnswer toLowerCase question original summary in
  ((hits = [] /\ a = no_payment_msg) \/
   (hits <> [] /\ a = join (lit " ") (firstn 3 hits))) /\
  test true paymentRe a = true.
Proof.
  intros NT P. cbv zeta. unfold simpleChatAnswer. cbv zeta.
  assert (truthy (trim (toLowerCase question)) = true) as T.
  { apply orb_true_iff in P as [P|P].
    - exact (includes_truthy_trim _ (lit "payment") eq_refl P).
    - exact (includes_truthy_trim _ (lit "fee") eq_refl P). }
  rewrite T, NT, P. cbn [negb].
  rewrite slice0_firstn by lia. change (Z.to_nat 3) with 3%nat.
  fold paymentRe. fold no_payment_msg.
  destruct (filter (test true paymentRe) (splitSentences original))
    as [|h l] eqn:F.
  - split; [left; split; reflexivity|]. vm_compute. reflexivity.
  - assert (In h (filter (test true paymentRe) (splitSentences original)))
      as I by (rewrite F; now left).
    apply filter_In in I as (I & M). apply splitSentences_truthy in I.
    change (firstn 3 (h :: l)) with (h :: firstn 2 l).
    destruct (join_cons (lit " ") h (firstn 2 l)) as (rest & ->).
    unfold or_else. rewrite (truthy_app h rest I).
    split; [right; split; [discriminate|reflexivity]|].
    now apply test_extends.
Qed.

Lemma X13_payment_answer_witness :
  let hits :=
    filter (test true paymentRe)
      (splitSentences (lit "The Price is fixed. Notice is required.")) in
  let a :=
    simpleChatAnswer toLowerCaseAscii (lit "What is the fee?")
      (lit "The Price is fixed. Notice is required.") [] in
  ((hits = [] /\ a = no_payment_msg) \/
   (hits <> [] /\ a = join (lit " ") (firstn 3 hits))) /\
  test true paymentRe a = true.
Proof.
  apply (X13_payment_answer toLowerCaseAscii (lit "What is the fee?"));
    reflexivity.
Defined.

(** ** The component *)

Lemma annotate_truthy (s : jsstring) : truthy s = true -> truthy (annotate s) = true.
Proof.
  intro H. pose proof (apply_rules_length LEGAL_MAP s) as L.
  change (apply_rules LEGAL_MAP s) with (annotate s) in L.
  destruct s; [discriminate|]. destruct (annotate (c :: s)); [cbn in L; lia|].
  reflexivity.
Qed.

Lemma summary_truthy (toLowerCase : jsstring -> jsstring)
    (text : jsstring) (maxPoints : Z) :
  Forall (fun p => truthy p = true)
    (heuristicsSummary toLowerCase text maxPoints).
Proof.
  eapply Forall_impl; [|apply summary_annotated].
  intros p (s & I & ->). apply annotate_truthy.
  now apply (splitSentences_truthy text).
Qed.

Lemma summary_at_most (toLowerCase : jsstring -> jsstring)
    (text : jsstring) (maxPoints : Z) :
  (0 <= maxPoints)%Z ->
  (Z.of_nat (length (heuristicsSummary toLowerCase text maxPoints))
   <= maxPoints)%Z.
Proof.
  intro H. rewrite heuristicsSummary_unfold. cbv zeta.
  rewrite length_map, slice0_length by lia. lia.
Qed.

(** An answer is never the empty string when no summary point is. *)
Lemma answer_truthy (toLowerCase : jsstring -> jsstring)
    (question original : jsstring) (summary : list jsstring) :
  Forall (fun p => truthy p = true) summary ->
  truthy (simpleChatAnswer toLowerCase question original summary) = true.
Proof.
  intro F. unfold simpleChatAnswer. cbv zeta.
  assert (O : forall a d, truthy d = true -> truthy (or_else a d) = true).
  { intros a d D. unfold or_else. now destruct (truthy a) eqn:A. }
  destruct (negb _); [reflexivity|].
  destruct (includes _ (lit "terminate")); [now apply O|].
  destruct (_ || _); [now apply O|].
  destruct summary as [|s l]; [reflexivity|]. cbn [length Nat.ltb Nat.leb].
  rewrite slice0_firstn by lia. change (Z.to_nat 2) with 2%nat.
  change (firstn 2 (s :: l)) with (s :: firstn 1 l).
  destruct (join_cons (lit " ") s (firstn 1 l)) as (rest & ->).
  apply truthy_app. now apply Forall_cons_iff in F as (F & _).
Qed.

Lemma step_invariant (toLowerCase : jsstring -> jsstring)
    (ev : App.event) (st : App.state) :
  App.valid ev -> App.invariant st ->
  App.invariant (App.step toLowerCase ev st).
Proof.
  intros V ((R1 & R2) & L & P & C).
  assert (I : App.invariant st) by (repeat split; assumption).
  destruct ev as [v|[n|]|v|v| |v| ]; cbn [App.step App.handleFile];
    try exact I; try (repeat split; cbn; assumption).
  - destruct V as (V1 & V2). repeat split; cbn; assumption.
  - unfold App.generateSummary. repeat split; cbn; try assumption.
    + pose proof (summary_at_most toLowerCase (App.text st)
                    (App.maxPoints st)). lia.
    + apply summary_truthy.
    + constructor.
  - unfold App.handleAsk.
    destruct (truthy (trim (App.q st))) eqn:T; cbn [negb]; [|exact I].
    repeat split; cbn; try assumption.
    apply Forall_app. split; [exact C|].
    constructor; [|constructor]. cbn [fst snd]. split; [exact T|].
    now apply answer_truthy.
Qed.

(** X14: whatever the user does, in any order (typing, choosing and
    loading files, moving the slider between 1 and 10, Simplify, Ask),
    the component stays in a state where the point count is between 1
    and 10, the summary has at most ten points, none of them empty, and
    every exchange of the chat has a question that is not blank and an
    answer that is not empty. *)
Theorem X14_component_invariant (toLowerCase : jsstring -> jsstring)
    (evs : list App.event) :
  Forall App.valid evs -> App.invariant (App.run toLowerCase evs).
Proof.
  unfold App.run.
  assert (App.invariant App.initial) as I.
  { repeat split; cbn; try lia; constructor. }
  revert I. generalize App.initial as st.
  induction evs as [|ev evs IH]; intros st I F; cbn [fold_left]; [exact I|].
  apply Forall_cons_iff in F as (V & F).
  apply IH; [|exact F]. now apply step_invariant.
Qed.

Lemma X14_component_invariant_witness :
  App.invariant
    (App.run toLowerCaseAscii
       [ App.TextInput (lit "A shall indemnify B. This is short.");
         App.SliderInput 1; App.SimplifyClick;
         App.QuestionInput (lit " "); App.AskClick;
         App.QuestionInput (lit "what now?"); App.AskClick ]).
Proof.
  apply X14_component_invariant.
  repeat (constructor; [cbn; try lia; exact Logic.I|]). constructor.
Defined.

(** ** The order of the ranking *)

Lemma outranks_ranks_before (toLowerCase : jsstring -> jsstring)
    (sents : list jsstring) (a b : scored) :
  scored_as_specified toLowerCase sents a ->
  scored_as_specified toLowerCase sents b ->
  outranks a b -> ranks_before toLowerCase a b.
Proof.
  intros (Ia & Sa) (Ib & Sb) O. unfold outranks in O.
  assert (idx a < length sents)%nat as La by (apply nth_error_Some; congruence).
  assert (idx b < length sents)%nat as Lb by (apply nth_error_Some; congruence).
  rewrite Sa, Sb, !spec_score_parts in O.
  rewrite (bonus_eq _ _ La), (bonus_eq _ _ Lb) in O.
  destruct (share_bounds _ _ La) as (Pa & Ua).
  destruct (share_bounds _ _ Lb) as (Pb & Ub).
  unfold ranks_before.
  set (ma := base_score toLowerCase (sent a)) in *.
  set (mb := base_score toLowerCase (sent b)) in *.
  destruct (Z.lt_trichotomy ma mb) as [L|[L|L]].
  - exfalso.
    assert (inject_Z ma + 1 <= inject_Z mb)%Q as K.
    { change 1%Q with (inject_Z 1). rewrite <- inject_Z_plus, <- Zle_Qle. lia. }
    lra.
  - right. split; [exact L|]. rewrite L in O.
    destruct (Nat.lt_trichotomy (idx a) (idx b)) as [G|[G|G]]; [exact G| |].
    + exfalso. rewrite G in O. lra.
    + exfalso. pose proof (share_lt (length sents) _ _ G). lra.
  - now left.
Qed.

Lemma StronglySorted_within {A} (R R' : A -> A -> Prop) (P : A -> Prop)
    (l : list A) :
  (forall a b, P a -> P b -> R a b -> R' a b) ->
  Forall P l -> StronglySorted R l -> StronglySorted R' l.
Proof.
  intros H F S. induction S as [|a l S IH Ra]; [constructor|].
  apply Forall_cons_iff in F as (Pa & Pl).
  constructor; [now apply IH|].
  rewrite Forall_forall in *. intros b Hb. apply H; auto.
Qed.

Lemma ranking_outranks (toLowerCase : jsstring -> jsstring) (text : jsstring) :
  StronglySorted outranks (ranking toLowerCase text).
Proof.
  apply (falling_apart_outranks toLowerCase (splitSentences text)).
  - apply sort_falling.
  - apply (Permutation_NoDup (l := seq 0 (length (splitSentences text)))).
    + symmetry. apply ranking_idx.
    + apply seq_NoDup.
  - apply ranking_as_specified.
Qed.

(** X15: the sorted array is ordered by keyword and length points, most
    first, and among sentences with the same points by place in the
    document, earliest first: the positional bonus only breaks ties. *)
Theorem X15_ranking_order (toLowerCase : jsstring -> jsstring)
    (text : jsstring) :
  StronglySorted (ranks_before toLowerCase) (ranking toLowerCase text).
Proof.
  apply (StronglySorted_within outranks (ranks_before toLowerCase)
           (scored_as_specified toLowerCase (splitSentences text))).
  - intros a b. apply outranks_ranks_before.
  - apply ranking_as_specified.
  - apply ranking_outranks.
Qed.

Lemma keyword_hits_le (toLowerCase : jsstring -> jsstring) (s : jsstring) :
  (keyword_hits toLowerCase s <= 15)%nat.
Proof.
  unfold keyword_hits.
  pose proof (filter_length_le (includes (toLowerCase s)) keywords) as L.
  exact L.
Qed.

(** X16: every score is above 0 and at most 48: fifteen keywords at
    three points, two length points, and a positional bonus in (0, 1]. *)
Theorem X16_score_bounds (toLowerCase : jsstring -> jsstring)
    (text : jsstring) :
  Forall (fun x => (0 < score x /\ score x <= 48)%Q)
    (ranking toLowerCase text).
Proof.
  eapply Forall_impl; [|apply ranking_as_specified].
  intros x (I & S).
  assert (idx x < length (splitSentences text))%nat as L
      by (apply nth_error_Some; congruence).
  rewrite S, spec_score_parts, (bonus_eq _ _ L).
  destruct (share_bounds _ _ L) as (P & U).
  pose proof (keyword_hits_le toLowerCase (sent x)) as H.
  assert (0 <= base_score toLowerCase (sent x) <= 47)%Z as (B0 & B1).
  { unfold base_score.
    destruct (120 <? length (sent x))%nat, (250 <? length (sent x))%nat; lia. }
  rewrite Zle_Qle in B0, B1.
  change (inject_Z 0) with 0%Q in B0. change (inject_Z 47) with 47%Q in B1.
  lra.
Qed.

(** ** Splitting a sentence again *)

Lemma boundary_len_nil prev : boundary_len prev [] = None.
Proof.
  unfold boundary_len. destruct prev as [p|]; [|reflexivity].
  now destruct (in_cls endCls p).
Qed.

(** A boundary inside a string is still one when text follows. *)
Lemma boundary_len_extends prev (b t : jsstring) :
  boundary_len prev (b ++ t) = None -> boundary_len prev b = None.
Proof.
  rewrite <- !exec_at_boundary. intro H.
  destruct (exec_at false boundaryRe prev b) eqn:E; [|reflexivity].
  exfalso. apply (exec_at_extends false boundaryRe prev b t); congruence.
Qed.

Lemma before_app (lead a : jsstring) : a <> [] -> before (lead ++ a) = before a.
Proof.
  intro H. unfold before. rewrite rev_app_distr.
  destruct (rev a) as [|c r] eqn:R; [|reflexivity].
  apply (f_equal (@rev cu)) in R. rewrite rev_involutive in R. contradiction.
Qed.

Lemma before_rev_cons (c : cu) (cur : jsstring) :
  before (rev (c :: cur)) = Some c.
Proof. unfold before. now rewrite rev_involutive. Qed.

(** No piece of the split has a boundary inside. *)
Lemma split_from_quiet (n : nat) :
  forall s prev cur,
    (length s <= n)%nat -> tracks prev cur ->
    (forall a b, rev cur = a ++ b -> a <> [] -> b <> [] ->
       boundary_len (before a) (b ++ s) = None) ->
    Forall quiet (split_from false boundaryRe O prev cur s).
Proof.
  induction n as [|n IH]; intros s prev cur L T J.
  - destruct s; [|cbn in L; lia]. cbn [split_from].
    constructor; [|constructor]. intros a b E Na.
    destruct b as [|x b]; [apply boundary_len_nil|].
    specialize (J a (x :: b) E Na). rewrite app_nil_r in J.
    apply J. discriminate.
  - destruct s as [|ch s].
    + cbn [split_from]. constructor; [|constructor]. intros a b E Na.
      destruct b as [|x b]; [apply boundary_len_nil|].
      specialize (J a (x :: b) E Na). rewrite app_nil_r in J.
      apply J. discriminate.
    + cbn [split_from]. rewrite exec_at_boundary.
      destruct (boundary_len prev (ch :: s)) as [k|] eqn:B.
      * destruct (boundary_len_some _ _ _ B)
          as (p & w & c & rest & -> & P & E & Bw & Nw & Lw & C).
        destruct w as [|x w]; [congruence|].
        cbn [app] in E. injection E as <- ->. cbn [length] in Lw. subst k.
        rewrite split_from_skip.
        inversion Bw as [|? ? Wch Bw']; subst.
        constructor.
        -- intros a b E Na.
           destruct b as [|y b]; [apply boundary_len_nil|].
           apply (boundary_len_extends _ _ (ch :: w ++ c :: rest)).
           apply J; auto. discriminate.
        -- apply (IH (c :: rest) _ []).
           ++ cbn [length] in *. rewrite length_app in L. cbn [length] in L. lia.
           ++ apply prev_after_blank; auto.
              intros q [= <-]. now apply ws_not_end.
           ++ intros [|? ?] b E; [congruence|discriminate].
      * apply IH; [cbn [length] in L; lia | reflexivity |].
        intros a b E Na Nb.
        destruct (exists_last Nb) as (b' & x & ->).
        cbn [rev] in E. rewrite app_assoc in E.
        apply app_inj_tail in E as (E & <-).
        rewrite <- app_assoc. cbn [app].
        destruct b' as [|y b'].
        -- rewrite app_nil_r in E. subst a. cbn [app].
           destruct cur as [|c0 cur]; [contradiction|].
           unfold tracks in T. rewrite before_rev_cons, <- T. exact B.
        -- apply J; auto. discriminate.
Qed.

Lemma split_boundary_quiet (s : jsstring) :
  Forall quiet (split false boundaryRe s).
Proof.
  unfold split. destruct s as [|ch s].
  - rewrite exec_at_boundary. cbn.
    constructor; [|constructor]. intros [|? ?] b E; [congruence|discriminate].
  - apply (split_from_quiet (length (ch :: s)) (ch :: s) None []); auto.
    + intros p H. discriminate.
    + intros [|? ?] b E; [congruence|discriminate].
Qed.

(** Trimming a quiet piece leaves a string without any boundary. *)
Lemma trim_quiet (p : jsstring) :
  quiet p ->
  forall a b, trim p = a ++ b -> boundary_len (before a) b = None.
Proof.
  intros Q a b E. destruct a as [|x a]; [reflexivity|].
  destruct (trim_split p) as (lead & trail & S & _ & _).
  rewrite E in S.
  apply (boundary_len_extends _ b trail).
  rewrite <- (before_app lead (x :: a)) by discriminate.
  apply Q.
  - rewrite S. now rewrite <- !app_assoc.
  - destruct lead; discriminate.
Qed.

(** A string without a boundary is not split. *)
Lemma split_from_whole (s : jsstring) :
  forall cur,
    (forall a b, rev cur ++ s = a ++ b -> boundary_len (before a) b = None) ->
    split_from false boundaryRe O (before (rev cur)) cur s = [rev cur ++ s].
Proof.
  induction s as [|ch s IH]; intros cur H.
  - cbn. now rewrite app_nil_r.
  - cbn [split_from]. rewrite exec_at_boundary.
    rewrite (H (rev cur) (ch :: s) eq_refl).
    rewrite <- (before_rev_cons ch cur). rewrite IH.
    + cbn [rev]. now rewrite <- app_assoc.
    + intros a b E. apply H. rewrite <- E. cbn [rev].
      now rewrite <- app_assoc.
Qed.

Lemma split_whole (x : jsstring) :
  (forall a b, x = a ++ b -> boundary_len (before a) b = None) ->
  split false boundaryRe x = [x].
Proof.
  intro H. unfold split. destruct x as [|c x].
  - now rewrite exec_at_boundary.
  - apply (split_from_whole (c :: x) []). exact H.
Qed.

Lemma unwrap_lines_fixed (x : jsstring) : ~ In 10 x -> unwrap_lines x = x.
Proof.
  unfold unwrap_lines. induction x as [|c x IH]; intro H; [reflexivity|].
  cbn [map]. destruct (N.eqb_spec c 10) as [->|_].
  - exfalso. apply H. now left.
  - rewrite IH; [reflexivity|]. intro I. apply H. now right.
Qed.

(** X17: splitting is idempotent: every sentence that [splitSentences]
    returns is, taken as a text of its own, exactly one sentence,
    itself. *)
Theorem X17_sentence_splits_to_itself (text : jsstring) :
  Forall (fun s => splitSentences s = [s]) (splitSentences text).
Proof.
  apply Forall_forall. intros x I.
  pose proof (splitSentences_truthy _ _ I) as T.
  unfold splitSentences in I. apply filter_In in I as (I & _).
  apply in_map_iff in I as (p & <- & P).
  assert (~ In 10 (trim p)) as N.
  { intro L. apply In_trim in L.
    apply (replace_newlines_no_lf text). exact (split_In _ _ _ _ _ P L). }
  pose proof (split_boundary_quiet (replace_g false newlineRe (lit " ") text))
    as Q.
  rewrite Forall_forall in Q. specialize (Q p P).
  unfold splitSentences.
  rewrite replace_newlines. fold (unwrap_lines (trim p)).
  rewrite (unwrap_lines_fixed _ N).
  rewrite (split_whole (trim p) (trim_quiet p Q)).
  cbn [map filter]. rewrite trim_idempotent, T. reflexivity.
Qed.

(** ** The two ways the code looks for a word *)

(** With the [i] flag a lower-case pattern character matches a code unit
    exactly when it equals the code unit lower-cased. *)
Lemma chr_match_lower_eq (c ch : cu) :
  lower_cu c = c -> chr_match true c ch = (c =? lower_cu ch).
Proof.
  unfold chr_match, canonicalize, lower_cu. intro H.
  apply eq_true_iff_eq. rewrite !N.eqb_eq.
  repeat match goal with
         | _ : context [?a <=? ?b] |- _ => destruct (N.leb_spec a b)
         | |- context [?a <=? ?b] => destruct (N.leb_spec a b)
         end; cbn [andb] in *; lia.
Qed.

Lemma rmatch_word (l s : jsstring) prev (k : cont) :
  Forall (fun c => lower_cu c = c) l ->
  (forall p s', k p s' <> None) ->
  (rmatch true (fold_right (fun c r => Seq (Chr c) r) Eps l) prev s k <> None
   <-> starts_with l (toLowerCaseAscii s) = true).
Proof.
  intros F K. revert prev s.
  induction F as [|c l C F IH]; intros prev s.
  - cbn. destruct s; split; auto.
  - cbn [fold_right rmatch]. destruct s as [|ch s].
    + cbn. split; [congruence|discriminate].
    + cbn [toLowerCaseAscii map starts_with].
      rewrite (chr_match_lower_eq c ch C).
      destruct (c =? lower_cu ch); cbn [andb].
      * apply IH.
      * split; [congruence|discriminate].
Qed.

Lemma exec_at_word (w : string) prev (s : jsstring) :
  Forall (fun c => lower_cu c = c) (lit w) ->
  (exec_at true (word w) prev s <> None
   <-> starts_with (lit w) (toLowerCaseAscii s) = true).
Proof.
  intro F. unfold exec_at, word.
  rewrite <- (rmatch_word (lit w) s prev (fun _ rest => Some rest) F)
    by discriminate.
  destruct (rmatch true _ prev s _); split; congruence.
Qed.

Lemma search_from_word (w : string) (s : jsstring) :
  Forall (fun c => lower_cu c = c) (lit w) ->
  forall prev pre_rev,
    (search_from true (word w) prev pre_rev s <> None
     <-> includes (toLowerCaseAscii s) (lit w) = true).
Proof.
  intro F. induction s as [|ch s IH]; intros prev pre_rev;
    rewrite search_from_eq.
  - pose proof (exec_at_word w prev [] F) as E.
    cbn [toLowerCaseAscii map includes] in *. rewrite orb_false_r.
    destruct (exec_at true (word w) prev []); rewrite <- E; split; congruence.
  - pose proof (exec_at_word w prev (ch :: s) F) as E.
    cbn [toLowerCaseAscii map includes] in *. fold (toLowerCaseAscii s) in *.
    rewrite orb_true_iff.
    destruct (exec_at true (word w) prev (ch :: s)).
    + split; [intros _; left; apply E; congruence | congruence].
    + rewrite (IH (Some ch) (ch :: pre_rev)). split; [now right|].
      intros [H|H]; [apply E in H; congruence | exact H].
Qed.

(** A lower-case word as a pattern with the [i] flag occurs in a string
    exactly when the word is part of the string with its ASCII letters
    lower-cased. *)
Lemma test_word (w : string) (s : jsstring) :
  Forall (fun c => lower_cu c = c) (lit w) ->
  test true (word w) s = includes (toLowerCaseAscii s) (lit w).
Proof.
  intro F. apply eq_true_iff_eq. rewrite <- (search_from_word w s F None []).
  unfold test, search.
  destruct (search_from true (word w) None [] s); split; congruence.
Qed.

(** X18: on a sentence that [toLowerCase] lower-cases as ASCII text, the
    filter [/terminate/i] of the chat and the test
    [toLowerCase().includes("terminate")] of the risk detector agree: a
    sentence quoted in a termination answer is a risk sentence. *)
Theorem X18_terminate_hits_are_risky (toLowerCase : jsstring -> jsstring)
    (s : jsstring) :
  toLowerCase s = toLowerCaseAscii s ->
  test true terminateRe s = includes (toLowerCase s) (lit "terminate") /\
  (test true terminateRe s = true -> risky toLowerCase s = true).
Proof.
  intro H.
  assert (test true terminateRe s = includes (toLowerCase s) (lit "terminate"))
    as E.
  { rewrite H. apply test_word. vm_compute. repeat constructor. }
  split; [exact E|]. intro T. rewrite E in T.
  unfold risky. apply existsb_exists. exists (lit "terminate").
  split; [|exact T]. unfold riskKeywords. cbn [map].
  do 4 right. left. reflexivity.
Qed.

Lemma X18_terminate_hits_are_risky_witness :
  test true terminateRe (lit "Either party may Terminate.") =
  includes (toLowerCaseAscii (lit "Either party may Terminate."))
    (lit "terminate") /\
  (test true terminateRe (lit "Either party may Terminate.") = true ->
   risky toLowerCaseAscii (lit "Either party may Terminate.") = true).
Proof. apply (X18_terminate_hits_are_risky toLowerCaseAscii). reflexivity. Defined.

(** ** Explanations in the summary *)

Lemma letter_not_ws (x : cu) : 65 <= x -> x <= 122 -> is_ws x = false.
Proof.
  intros. unfold is_ws.
  repeat match goal with
         | |- context [?a =? ?b] => destruct (N.eqb_spec a b); [lia|]
         | |- context [?a <=? ?b] => destruct (N.leb_spec a b)
         end; cbn; auto; lia.
Qed.

Lemma is_letter_range (c : cu) : is_letter c = true -> 65 <= c /\ c <= 122.
Proof.
  unfold is_letter.
  repeat match goal with
         | |- context [?a <=? ?b] => destruct (N.leb_spec a b)
         end; cbn; intro; try discriminate; lia.
Qed.

Lemma cls_ws_match (ch : cu) : cls_match true ClsWs ch = is_ws ch.
Proof.
  unfold cls_match. cbn [in_cls andb].
  assert (is_ws (swap_case ch) = true -> is_ws ch = true) as H.
  { unfold swap_case.
    destruct (N.leb_spec 97 ch), (N.leb_spec ch 122); cbn [andb].
    - rewrite (letter_not_ws (ch - 32)) by lia. discriminate.
    - destruct (N.leb_spec 65 ch), (N.leb_spec ch 90); cbn [andb]; auto.
      rewrite (letter_not_ws (ch + 32)) by lia. discriminate.
    - destruct (N.leb_spec 65 ch), (N.leb_spec ch 90); cbn [andb]; auto.
      rewrite (letter_not_ws (ch + 32)) by lia. discriminate.
    - destruct (N.leb_spec 65 ch), (N.leb_spec ch 90); cbn [andb]; auto.
      rewrite (letter_not_ws (ch + 32)) by lia. discriminate. }
  destruct (is_ws ch); [reflexivity|].
  destruct (is_ws (swap_case ch)); [|reflexivity].
  symmetry. now apply H.
Qed.

Lemma chr_match_letter (c ch : cu) :
  is_letter c = true -> chr_match true c ch = true -> is_letter ch = true.
Proof.
  unfold chr_match, canonicalize, is_letter. intros L M.
  apply N.eqb_eq in M.
  repeat match goal with
         | _ : context [?a <=? ?b] |- _ => destruct (N.leb_spec a b)
         | |- context [?a <=? ?b] => destruct (N.leb_spec a b)
         end; cbn in *; try reflexivity; try discriminate; lia.
Qed.

Lemma last_app_nonempty {A} (a b : list A) (d : A) :
  b <> [] -> last (a ++ b) d = last b d.
Proof.
  intro H. induction a as [|x a IH]; [reflexivity|].
  cbn [app last]. destruct (a ++ b) eqn:E; [|exact IH].
  apply app_eq_nil in E as (_ & E). contradiction.
Qed.

Lemma ends_letter_app (a b : jsstring) :
  (b = [] -> ends_letter a) -> ends_letter b -> ends_letter (a ++ b).
Proof.
  intros Ha [->|Hb].
  - rewrite app_nil_r. auto.
  - destruct b as [|x b]; [discriminate|].
    right. now rewrite last_app_nonempty.
Qed.

Lemma star_cls_reloc (p : cu -> bool) (pre y' : jsstring) (K : cont) :
  Forall (fun c => p c = true) pre -> (forall q, K q y' <> None) ->
  forall q0, star_cls p q0 (pre ++ y') K <> None.
Proof.
  intros F HK. induction F as [|c pre Pc F IH]; intro q0; cbn [app].
  - apply star_cls_falls_back. apply HK.
  - cbn [star_cls]. rewrite Pc. specialize (IH (Some c)).
    destruct (star_cls p (Some c) (pre ++ y') K); [discriminate|contradiction].
Qed.

(** A glossary pattern consumes letters and white space only, and what
    it consumed it matches again in any other place. *)
Lemma rmatch_wordy (r : regex) :
  wordy r = true ->
  forall prev s k res,
    rmatch true r prev s k = Some res ->
    exists pre s' p', s = pre ++ s' /\ k p' s' = Some res /\ consumed r pre.
Proof.
  induction r as [ |c|c|r1 IH1 r2 IH2|r1 IH1 r2 IH2|r1 IH1|c|c|c];
    cbn [wordy]; intros W prev s k res H; cbn [rmatch] in H;
    try discriminate W.
  - (* Eps *)
    exists [], s, prev. repeat split; auto.
    + intro N. discriminate N.
    + now left.
    + intros prev' y' K HK. cbn. apply HK.
  - (* Chr *)
    destruct s as [|ch s]; [discriminate|].
    destruct (chr_match true c ch) eqn:M; [|discriminate].
    pose proof (chr_match_letter c ch W M) as L.
    exists [ch], s, (Some ch). repeat split; auto.
    + constructor; [|constructor]. unfold okchar. now rewrite L.
    + discriminate.
    + intros _. right. exact L.
    + intros prev' y' K HK. cbn [app rmatch]. rewrite M. apply HK.
  - (* Cls *)
    destruct c as [|rs]; [|discriminate W].
    destruct s as [|ch s]; [discriminate|].
    destruct (cls_match true ClsWs ch) eqn:M; [|discriminate].
    exists [ch], s, (Some ch). repeat split; auto.
    + constructor; [|constructor]. unfold okchar.
      rewrite cls_ws_match in M. rewrite M. apply orb_true_r.
    + discriminate.
    + intro T. discriminate T.
    + intros prev' y' K HK. cbn [app rmatch]. rewrite M. apply HK.
  - (* Seq *)
    apply andb_true_iff in W as (W1 & W2).
    destruct (IH1 W1 _ _ _ _ H) as (pre1 & s1 & p1 & -> & H1 & F1 & N1 & T1 & R1).
    destruct (IH2 W2 _ _ _ _ H1) as (pre2 & s2 & p2 & -> & H2 & F2 & N2 & T2 & R2).
    exists (pre1 ++ pre2), s2, p2. rewrite <- app_assoc.
    repeat split; auto.
    + apply Forall_app. now split.
    + cbn [nonempty]. intros N E. apply app_eq_nil in E as (E1 & E2).
      apply orb_true_iff in N as [N|N]; [now apply N1 | now apply N2].
    + cbn [tailok]. intro T. apply andb_true_iff in T as (Tb & Ta).
      apply ends_letter_app; [|now apply T2].
      intros ->. apply orb_true_iff in Ta as [Ta|Nb]; [now apply T1|].
      exfalso. now apply N2.
    + intros prev' y' K HK. cbn [rmatch]. rewrite <- app_assoc.
      apply R1. intro q. now apply R2.
  - (* Alt *)
    apply andb_true_iff in W as (W1 & W2).
    destruct (rmatch true r1 prev s k) as [x|] eqn:E.
    + injection H as <-.
      destruct (IH1 W1 _ _ _ _ E) as (pre & s' & p' & -> & H1 & F & N & T & R).
      exists pre, s', p'. repeat split; auto.
      * cbn [nonempty]. intro A. apply andb_true_iff in A as (A & _). auto.
      * cbn [tailok]. intro A. apply andb_true_iff in A as (A & _). auto.
      * intros prev' y' K HK. cbn [rmatch].
        specialize (R prev' y' K HK).
        destruct (rmatch true r1 prev' (pre ++ y') K); [discriminate|contradiction].
    + destruct (IH2 W2 _ _ _ _ H) as (pre & s' & p' & -> & H1 & F & N & T & R).
      exists pre, s', p'. repeat split; auto.
      * cbn [nonempty]. intro A. apply andb_true_iff in A as (_ & A). auto.
      * cbn [tailok]. intro A. apply andb_true_iff in A as (_ & A). auto.
      * intros prev' y' K HK. cbn [rmatch].
        destruct (rmatch true r1 prev' (pre ++ y') K); [discriminate|].
        now apply R.
  - (* Opt *)
    destruct (rmatch true r1 prev s k) as [x|] eqn:E.
    + injection H as <-.
      destruct (IH1 W _ _ _ _ E) as (pre & s' & p' & -> & H1 & F & N & T & R).
      exists pre, s', p'. repeat split; auto.
      * intro A. discriminate A.
      * intros prev' y' K HK. cbn [rmatch].
        specialize (R prev' y' K HK).
        destruct (rmatch true r1 prev' (pre ++ y') K); [discriminate|contradiction].
    + exists [], s, prev. repeat split; auto.
      * intro A. discriminate A.
      * intros _. now left.
      * intros prev' y' K HK. cbn [rmatch app].
        destruct (rmatch true r1 prev' y' K); [discriminate|apply HK].
  - (* PlusCls *)
    destruct c as [|rs]; [|discriminate W].
    destruct s as [|ch s]; [discriminate|].
    destruct (cls_match true ClsWs ch) eqn:M; [|discriminate].
    destruct (star_cls_calls _ _ _ _ _ H) as (pre & s' & p' & -> & F & K1).
    exists (ch :: pre), s', p'. repeat split; auto.
    + constructor.
      * unfold okchar. rewrite cls_ws_match in M. rewrite M. apply orb_true_r.
      * eapply Forall_impl; [|exact F]. intros x Hx. unfold okchar.
        cbn beta in Hx. rewrite cls_ws_match in Hx. rewrite Hx.
        apply orb_true_r.
    + discriminate.
    + intro T. discriminate T.
    + intros prev' y' K HK. cbn [app rmatch]. rewrite M.
      now apply star_cls_reloc.
Qed.

Lemma consumed_exec (r : regex) (M : jsstring) :
  consumed r M -> forall prev y, exec_at true r prev (M ++ y) <> None.
Proof.
  intros (_ & _ & _ & R) prev y. unfold exec_at.
  specialize (R prev y (fun _ rest => Some rest)).
  destruct (rmatch true r prev (M ++ y) _); [discriminate|].
  exfalso. apply R; [discriminate|reflexivity].
Qed.

(** A position where the pattern matches makes [test] true. *)
Lemma test_at (i : bool) (r : regex) (a b : jsstring) :
  exec_at i r (before a) b <> None -> test i r (a ++ b) = true.
Proof.
  intro H. unfold test.
  destruct (search i r (a ++ b)) eqn:E; [reflexivity|].
  exfalso. apply H. now apply (search_none _ _ _ E a b).
Qed.

Lemma found_test (r : regex) (x M y : jsstring) :
  consumed r M -> test true r (x ++ M ++ y) = true.
Proof. intro C. apply test_at. now apply consumed_exec. Qed.

Lemma exec_at_wordy (r : regex) prev (s : jsstring) (n : nat) :
  wordy r = true -> exec_at true r prev s = Some n ->
  exists M y, s = M ++ y /\ length M = n /\ consumed r M.
Proof.
  intros W. unfold exec_at.
  destruct (rmatch true r prev s _) as [rest|] eqn:E; [|discriminate].
  intros [= <-].
  destruct (rmatch_wordy r W _ _ _ _ E) as (pre & s' & p' & -> & [= <-] & C).
  exists pre, s'. split; [reflexivity|].
  split; [rewrite length_app; lia|exact C].
Qed.

Lemma test_found (r : regex) (s : jsstring) :
  wordy r = true -> test true r s = true ->
  exists x M y, s = x ++ M ++ y /\ consumed r M.
Proof.
  intros W. unfold test.
  destruct (search true r s) as [[[pre m] post]|] eqn:E; [|discriminate].
  intros _. destruct (search_some _ _ _ _ _ _ E) as (-> & X & _).
  destruct (exec_at_wordy r _ _ _ W X) as (M & y & E1 & L & C).
  exists pre, M, y. split; [now rewrite E1|exact C].
Qed.

Lemma app_same_length {A} (a b c d : list A) :
  a ++ b = c ++ d -> length a = length c -> a = c /\ b = d.
Proof.
  revert c. induction a as [|x a IH]; intros [|z c] E L;
    try discriminate L.
  - now split.
  - injection E as -> E. injection L as L.
    destruct (IH c E L) as (-> & ->). now split.
Qed.

(** What a rule with a glossary pattern does: nothing, or it puts the
    explanation after text its pattern consumed. *)
Lemma apply_rule_match (rule : regex * jsstring) (x : jsstring) :
  wordy (fst rule) = true ->
  apply_rule rule x = x \/
  exists pre M post,
    x = pre ++ M ++ post /\ consumed (fst rule) M /\
    apply_rule rule x = (pre ++ M) ++ paren (snd rule) ++ post.
Proof.
  intro W. unfold apply_rule, replace.
  destruct (search true (fst rule) x) as [[[pre m] post]|] eqn:E;
    [|now left].
  right. destruct (search_some _ _ _ _ _ _ E) as (-> & X & _).
  destruct (exec_at_wordy _ _ _ _ W X) as (M & y & E1 & L & C).
  assert (M = m /\ y = post) as (-> & ->)
      by (apply app_same_length; [now symmetry|exact L]).
  exists pre, m, post. split; [reflexivity|]. split; [exact C|].
  unfold gloss, paren. now rewrite <- !app_assoc.
Qed.

(** A stretch of text that does not hold [d] lies on one side of an
    occurrence of [d]. *)
Lemma sep_split {A} (d : A) (a b : list A) :
  forall x M y,
    x ++ M ++ y = a ++ d :: b -> ~ In d M ->
    (exists y1, a = x ++ M ++ y1 /\ y = y1 ++ d :: b) \/
    (exists x1, x = a ++ d :: x1 /\ b = x1 ++ M ++ y).
Proof.
  induction a as [|c a IH]; intros x M y E N.
  - destruct x as [|c' x].
    + destruct M as [|c' M].
      * left. exists []. cbn in *. auto.
      * exfalso. cbn in E. injection E as -> _. apply N. now left.
    + right. cbn in E. injection E as -> E. exists x. auto.
  - destruct x as [|c' x].
    + destruct M as [|c' M].
      * left. exists (c :: a). cbn in *. auto.
      * cbn in E. injection E as -> E.
        destruct (IH [] M y E) as [(y1 & -> & ->)|(x1 & X & _)].
        -- intro I. apply N. now right.
        -- left. exists y1. auto.
        -- destruct a; discriminate X.
    + cbn in E. injection E as -> E.
      destruct (IH x M y E N) as [(y1 & -> & ->)|(x1 & -> & ->)].
      * left. exists y1. auto.
      * right. exists x1. auto.
Qed.

Lemma consumed_no_paren (r : regex) (M : jsstring) :
  consumed r M -> ~ In 40 M /\ ~ In 41 M.
Proof.
  intros (F & _). rewrite Forall_forall in F.
  split; intro I; apply F in I; discriminate I.
Qed.

Lemma consumed_last (r : regex) (M pre a : jsstring) (c : cu) :
  good r = true -> consumed r M -> pre ++ M = a ++ [c] ->
  is_letter c = true.
Proof.
  intros G (_ & N & T & _) E. unfold good in G.
  apply andb_true_iff in G as (G & Gt). apply andb_true_iff in G as (_ & Gn).
  specialize (N Gn). destruct (T Gt) as [->|L]; [contradiction|].
  rewrite <- (last_app_nonempty pre M 0 N), E, last_last in L. exact L.
Qed.

Lemma good_wordy (r : regex) : good r = true -> wordy r = true.
Proof.
  unfold good. intro G. apply andb_true_iff in G as (G & _).
  now apply andb_true_iff in G as (G & _).
Qed.

(** Putting an explanation into a string creates no match of a pattern
    that does not occur in the explanation. *)
Lemma insert_no_new_match (r : regex) (e Q post : jsstring) :
  good r = true -> test true r e = false ->
  test true r (Q ++ paren e ++ post) = true ->
  test true r (Q ++ post) = true.
Proof.
  intros G Te H.
  destruct (test_found r _ (good_wordy r G) H) as (x & M & y & E & C).
  destruct (consumed_no_paren r M C) as (N40 & N41).
  assert (Q ++ paren e ++ post = (Q ++ [32]) ++ 40 :: (e ++ 41 :: post)) as F.
  { unfold paren. cbn. now rewrite <- !app_assoc. }
  rewrite F in E. symmetry in E.
  destruct (sep_split 40 _ _ _ _ _ E N40) as [(y1 & E1 & _)|(x1 & _ & E1)].
  - destruct y1 as [|c y1] using rev_ind.
    + rewrite app_nil_r in E1. symmetry in E1.
      pose proof (consumed_last r M x Q 32 G C E1) as L. discriminate L.
    + clear IHy1. rewrite !app_assoc in E1.
      apply app_inj_tail in E1 as (-> & _).
      rewrite <- !app_assoc. now apply found_test.
  - symmetry in E1.
    destruct (sep_split 41 _ _ _ _ _ E1 N41) as [(y1 & -> & _)|(x2 & _ & ->)].
    + exfalso. exact (eq_true_false_abs _ (found_test r x1 M y1 C) Te).
    + rewrite app_assoc. now apply found_test.
Qed.

Lemma apply_rule_no_new_match (r : regex) (rule : regex * jsstring)
    (x : jsstring) :
  good r = true -> wordy (fst rule) = true ->
  test true r (snd rule) = false ->
  test true r (apply_rule rule x) = true -> test true r x = true.
Proof.
  intros G W Te H.
  destruct (apply_rule_match rule x W) as [E|(pre & M & post & -> & _ & E)].
  - now rewrite E in H.
  - rewrite E in H. apply insert_no_new_match in H; auto.
    now rewrite <- app_assoc in H.
Qed.

(** A rule does not break an explanation that is already in the string
    when its pattern does not occur in that explanation. *)
Lemma apply_rule_keeps_paren (rule : regex * jsstring) (e x : jsstring) :
  good (fst rule) = true -> test true (fst rule) e = false ->
  includes x (paren e) = true ->
  includes (apply_rule rule x) (paren e) = true.
Proof.
  intros G Te H.
  destruct (apply_rule_match rule x (good_wordy _ G))
    as [->|(pre & M & post & E & C & ->)]; [exact H|].
  apply includes_iff in H as (a & b & Ex).
  apply includes_iff.
  assert ((pre ++ M) ++ post = a ++ paren e ++ b) as E2
      by (rewrite <- app_assoc, <- E; exact Ex).
  apply app_eq_app in E2 as (l & [(E3 & E4)|(E3 & E4)]).
  - (* the explanation starts before the insertion point *)
    symmetry in E4. apply app_eq_app in E4 as (l2 & [(E5 & E6)|(E5 & E6)]).
    + (* ... and ends before it *)
      exists a, (l2 ++ paren (snd rule) ++ post).
      rewrite E3, E5. now rewrite <- !app_assoc.
    + (* the insertion point lies within the explanation *)
      destruct l as [|c l].
      * exists ((pre ++ M) ++ paren (snd rule)), b.
        cbn [app] in E5. rewrite E6, <- E5. now rewrite <- !app_assoc.
      * destruct l2 as [|c2 l2] using rev_ind.
        -- rewrite app_nil_r in E5.
           exists a, (paren (snd rule) ++ post).
           rewrite E3, <- E5. now rewrite <- !app_assoc.
        -- clear IHl2. exfalso.
           unfold paren in E5. cbn in E5. injection E5 as <- E5.
           destruct l as [|c l].
           ++ pose proof (consumed_last _ M pre a 32 G C E3) as L.
              discriminate L.
           ++ injection E5 as <- E5.
              rewrite app_assoc in E5. apply app_inj_tail in E5 as (E5 & _).
              destruct (consumed_no_paren _ M C) as (N40 & _).
              assert (pre ++ M ++ [] = (a ++ [32]) ++ 40 :: l) as E7.
              { rewrite app_nil_r, E3. now rewrite <- app_assoc. }
              destruct (sep_split 40 _ _ _ _ _ E7 N40)
                as [(y1 & _ & Y)|(x1 & _ & X)].
              ** destruct y1; discriminate Y.
              ** rewrite app_nil_r in X. subst l.
                 rewrite E5, <- app_assoc in Te.
                 exact (eq_true_false_abs _ (found_test _ x1 M l2 C) Te).
  - (* the explanation starts after the insertion point *)
    exists ((pre ++ M) ++ paren (snd rule) ++ l), b.
    rewrite E4. now rewrite <- !app_assoc.
Qed.

Lemma glossary_ok_spec (rules : list (regex * jsstring)) :
  glossary_ok rules = true ->
  forall rule rule',
    In rule rules -> In rule' rules ->
    good (fst rule) = true /\ test true (fst rule) (snd rule') = false.
Proof.
  unfold glossary_ok. intros H rule rule' I I'.
  rewrite forallb_forall in H. specialize (H rule I).
  apply andb_true_iff in H as (G & H). split; [exact G|].
  rewrite forallb_forall in H. specialize (H rule' I').
  now apply negb_true_iff in H.
Qed.

Lemma apply_rules_no_new_match (r : regex) (rs : list (regex * jsstring)) :
  good r = true ->
  (forall rule, In rule rs ->
     wordy (fst rule) = true /\ test true r (snd rule) = false) ->
  forall x, test true r (apply_rules rs x) = true -> test true r x = true.
Proof.
  intros G. induction rs as [|rule rs IH]; intros H x T; [exact T|].
  cbn in T. fold (apply_rules rs (apply_rule rule x)) in T.
  destruct (H rule (or_introl eq_refl)) as (W & Te).
  apply (apply_rule_no_new_match r rule x G W Te).
  apply IH; [|exact T]. intros rule' I. apply H. now right.
Qed.

Lemma apply_rules_keep_paren (e : jsstring) (rs : list (regex * jsstring)) :
  (forall rule, In rule rs ->
     good (fst rule) = true /\ test true (fst rule) e = false) ->
  forall x, includes x (paren e) = true ->
            includes (apply_rules rs x) (paren e) = true.
Proof.
  induction rs as [|rule rs IH]; intros H x I; [exact I|].
  cbn. fold (apply_rules rs (apply_rule rule x)).
  destruct (H rule (or_introl eq_refl)) as (G & Te).
  apply IH; [intros rule' I'; apply H; now right|].
  now apply apply_rule_keeps_paren.
Qed.

(** After all the rules, a string in which the pattern of a rule occurs
    holds the explanation of that rule in parentheses. *)
Lemma apply_rules_glossed (rules : list (regex * jsstring)) :
  glossary_ok rules = true ->
  forall rule s,
    In rule rules ->
    test true (fst rule) (apply_rules rules s) = true ->
    includes (apply_rules rules s) (paren (snd rule)) = true.
Proof.
  intros OK rule s I T.
  pose proof (glossary_ok_spec rules OK) as S.
  destruct (in_split _ _ I) as (rs1 & rs2 & E).
  assert (forall rule', In rule' rs2 -> In rule' rules) as I2.
  { intros rule' J. rewrite E. apply in_or_app. right. now right. }
  assert (apply_rules rules s =
          apply_rules rs2 (apply_rule rule (apply_rules rs1 s))) as F.
  { rewrite E. unfold apply_rules. now rewrite fold_left_app. }
  rewrite F in *.
  destruct (S rule rule I I) as (G & Te).
  apply apply_rules_keep_paren.
  - intros rule' J. apply (S rule' rule (I2 _ J) I).
  - apply apply_rules_no_new_match in T; auto.
    + destruct (apply_rule_match rule (apply_rules rs1 s) (good_wordy _ G))
        as [U|(pre & M & post & _ & _ & ->)].
      * rewrite U in T. rewrite U.
        exfalso.
        destruct (apply_rule_cases rule (apply_rules rs1 s))
          as [(T' & _)|(_ & pre & m & post & Em & Ea)]; [congruence|].
        rewrite U in Ea. apply (f_equal (@length cu)) in Ea.
        rewrite Em in Ea at 1. unfold gloss in Ea.
        rewrite !length_app in Ea. cbn [lit length] in Ea. cbn in Ea. lia.
      * apply includes_iff. exists (pre ++ M), post. reflexivity.
    + intros rule' J. destruct (S rule rule' I (I2 _ J)) as (_ & X).
      split; [|exact X]. apply good_wordy. apply (S rule' rule (I2 _ J) I).
Qed.

Lemma LEGAL_MAP_ok : glossary_ok LEGAL_MAP = true.
Proof. vm_compute. reflexivity. Qed.

(** C3, amended: the eight rules stand in the order force majeure,
    indemnify, waiver, jurisdiction, notwithstanding, liability,
    confidentiality, termination; [annotate] applies them in that order,
    each to the result of the one before; a rule puts its explanation in
    parentheses right after the first match of its pattern in the string
    it is given and changes nothing else, the match not depending on the
    case of ASCII letters; every point of the summary is [annotate] of a
    sentence of the text; and every point of the summary in which the
    pattern of a rule occurs holds the explanation of that rule in
    parentheses (somewhere in the point, not always right after the
    first match). *)
Theorem C3_glossary_steps :
  Forall2 (fun rule term => search true (fst rule) term = Some ([], term, []))
    LEGAL_MAP rule_terms /\
  (forall s, annotate s = fold_left (fun plain rule => apply_rule rule plain)
                            LEGAL_MAP s) /\
  Forall rule_step LEGAL_MAP /\
  Forall (fun rule => forall s,
            match_span (fst rule) (toLowerCaseAscii s) = match_span (fst rule) s)
    LEGAL_MAP /\
  (forall toLowerCase text maxPoints,
      Forall (fun p => exists s, In s (splitSentences text) /\ p = annotate s)
        (heuristicsSummary toLowerCase text maxPoints)) /\
  (forall toLowerCase text maxPoints,
      Forall
        (fun p =>
           Forall
             (fun rule =>
                test true (fst rule) p = false \/
                includes p (lit " (" ++ snd rule ++ lit ")") = true)
             LEGAL_MAP)
        (heuristicsSummary toLowerCase text maxPoints)).
Proof.
  split; [|split; [|split; [|split; [|split]]]].
  - unfold LEGAL_MAP, rule_terms. cbn [map].
    repeat (constructor; [vm_compute; reflexivity|]). constructor.
  - reflexivity.
  - apply Forall_forall. intros rule _. apply apply_rule_step.
  - apply Forall_forall. intros rule _ s. apply match_span_lower.
  - apply summary_annotated.
  - intros toLowerCase text maxPoints.
    eapply Forall_impl; [|apply summary_annotated].
    intros p (s & _ & ->). apply Forall_forall. intros rule I.
    destruct (test true (fst rule) (annotate s)) eqn:T; [right|now left].
    apply (apply_rules_glossed LEGAL_MAP LEGAL_MAP_ok rule s I T).
Qed.

(** ** Totality and the empty document *)

Lemma slice0_length_any {A} (e : Z) (l : list A) :
  Z.of_nat (length (slice0 e l)) =
  if (e <? 0)%Z then Z.max (Z.of_nat (length l) + e) 0
  else Z.min e (Z.of_nat (length l)).
Proof.
  unfold slice0. rewrite length_firstn.
  destruct (Z.ltb_spec e 0); lia.
Qed.

(** C8, as stated, fails where it leaves the summary handed to [answer]
    free: on the empty document a question that mentions none of
    terminate, payment and fee is answered with the first two points of
    whatever summary is current, not with a fixed message. *)
Lemma C8_stale_summary_counterexample :
  let a :=
    simpleChatAnswer toLowerCaseAscii (lit "hello") []
      [lit "one"; lit "two"; lit "three"] in
  a = lit "one two" /\
  ~ In a [prompt_msg; no_termination_msg; no_payment_msg; no_answer_msg].
Proof.
  cbv zeta. split; [vm_compute; reflexivity|].
  vm_compute. intros [H|[H|[H|[H|[]]]]]; discriminate H.
Qed.

(** C8, amended: the functions have a result of a known form on every
    input: for every text and every integer [maxPoints] the summary has
    [min maxPoints n] points when [maxPoints] is not negative and
    [max (n + maxPoints) 0] when it is, [n] the number of sentences; the
    risk list has at most six entries; an answer is one of the four
    fixed messages, or up to three sentences of the text joined by
    spaces, or the first two points of the summary joined.  On the empty
    document the summary and the risk list are empty; with the empty
    summary every question gets a fixed message (the prompt when its
    lower-cased form trims to nothing, else one of the three messages of
    the branches); with another summary it gets a fixed message or the
    first two points of that summary. *)
Theorem C8_total_empty_document (toLowerCase : jsstring -> jsstring) :
  (forall text maxPoints,
      Z.of_nat (length (heuristicsSummary toLowerCase text maxPoints)) =
      if (maxPoints <? 0)%Z
      then Z.max (Z.of_nat (length (splitSentences text)) + maxPoints) 0
      else Z.min maxPoints (Z.of_nat (length (splitSentences text)))) /\
  (forall text, (length (risks toLowerCase text) <= 6)%nat) /\
  (forall question original summary,
      let a := simpleChatAnswer toLowerCase question original summary in
      In a [prompt_msg; no_termination_msg; no_payment_msg; no_answer_msg] \/
      (exists hits,
          hits <> [] /\ (length hits <= 3)%nat /\
          incl hits (splitSentences original) /\
          a = join (lit " ") hits) \/
      (summary <> [] /\ a = join (lit " ") (firstn 2 summary))) /\
  (forall maxPoints, heuristicsSummary toLowerCase [] maxPoints = []) /\
  risks toLowerCase [] = [] /\
  (forall question,
      let a := simpleChatAnswer toLowerCase question [] [] in
      (truthy (trim (toLowerCase question)) = false /\ a = prompt_msg) \/
      (truthy (trim (toLowerCase question)) = true /\
       In a [no_termination_msg; no_payment_msg; no_answer_msg])) /\
  (forall question summary,
      let a := simpleChatAnswer toLowerCase question [] summary in
      In a [prompt_msg; no_termination_msg; no_payment_msg; no_answer_msg] \/
      (summary <> [] /\ a = join (lit " ") (firstn 2 summary))).
Proof.
  assert (Branch : forall (f : jsstring -> bool) sents msg,
             or_else (join (lit " ") (slice0 3 (filter f sents))) msg = msg \/
             exists hits,
               hits <> [] /\ (length hits <= 3)%nat /\ incl hits sents /\
               or_else (join (lit " ") (slice0 3 (filter f sents))) msg =
               join (lit " ") hits).
  { intros f sents msg. unfold or_else.
    destruct (truthy (join (lit " ") (slice0 3 (filter f sents)))) eqn:T;
      [right|now left].
    rewrite slice0_firstn in * by lia. change (Z.to_nat 3) with 3%nat in *.
    exists (firstn 3 (filter f sents)). repeat split.
    - intro E. rewrite E in T. discriminate T.
    - apply firstn_le_length.
    - intros x I.
      assert (In x (filter f sents)) as J.
      { rewrite <- (firstn_skipn 3 (filter f sents)).
        apply in_or_app. now left. }
      now apply filter_In in J as (J & _). }
  assert (Last : forall summary : list jsstring,
             (if (0 <? length summary)%nat
              then join (lit " ") (slice0 2 summary)
              else lit "No relevant answer found.") = no_answer_msg \/
             (summary <> [] /\
              (if (0 <? length summary)%nat
               then join (lit " ") (slice0 2 summary)
               else lit "No relevant answer found.") =
              join (lit " ") (firstn 2 summary))).
  { intros [|s l]; [now left|right]. split; [discriminate|].
    cbn [length Nat.ltb Nat.leb]. now rewrite slice0_firstn by lia. }
  split; [|split; [|split; [|split; [|split; [|split]]]]].
  - intros text maxPoints. rewrite heuristicsSummary_unfold. cbv zeta.
    rewrite length_map, slice0_length_any, sort_length, scoring_length.
    destruct (Z.ltb_spec maxPoints 0),
      (Z.ltb_spec (Z.min maxPoints (Z.of_nat (length (splitSentences text)))) 0);
      lia.
  - intro text. unfold risks. rewrite slice0_firstn by lia.
    apply firstn_le_length.
  - intros question original summary. cbv zeta. unfold simpleChatAnswer.
    cbv zeta.
    destruct (negb _); [left; now left|].
    destruct (includes _ (lit "terminate")).
    { destruct (Branch (test true (word "terminate"))
                  (splitSentences original)
                  (lit "No explicit termination clause found."))
        as [->|(hits & N & L & I & ->)].
      - left. right. now left.
      - right. left. now exists hits. }
    destruct (_ || _).
    { destruct (Branch
                  (test true (Alt (word "payment") (Alt (word "fee") (word "price"))))
                  (splitSentences original) (lit "No payment clause found."))
        as [->|(hits & N & L & I & ->)].
      - left. right. right. now left.
      - right. left. now exists hits. }
    destruct (Last summary) as [->|(N & ->)].
    + left. do 3 right. now left.
    + right. right. now split.
  - reflexivity.
  - reflexivity.
  - intro question. cbv zeta. unfold simpleChatAnswer.
    rewrite splitSentences_nil. cbv zeta.
    destruct (truthy (trim (toLowerCase question))); cbn [negb].
    + right. split; [reflexivity|].
      destruct (includes (toLowerCase question) (lit "terminate")).
      * left. reflexivity.
      * destruct (includes (toLowerCase question) (lit "payment")
                  || includes (toLowerCase question) (lit "fee")).
        -- right. left. reflexivity.
        -- right. right. left. reflexivity.
    + left. split; reflexivity.
  - intros question summary. cbv zeta. unfold simpleChatAnswer.
    rewrite splitSentences_nil. cbv zeta.
    destruct (negb _); [left; now left|].
    destruct (includes _ (lit "terminate")); [left; right; now left|].
    destruct (_ || _); [left; right; right; now left|].
    destruct (Last summary) as [->|(N & ->)].
    + left. do 3 right. now left.
    + right. now split.
Qed.
